(** * provider: template-driven configuration and tag constraints

    A shallow embedding of [provider/provider.go] (package [provider] of
    traefik) together with the parts of the Go standard library it calls
    ([unicode/utf8], [unicode], [strings]), and the properties of the
    natural-language specification stated and proved over that embedding.

    Conventions.
    - A Go [string] is a sequence of bytes: [gostring := list ascii].
    - A Go [rune] and a Go [int] are integers in [Z].
    - A Go [(T, error)] result is a pair whose second component is an
      [option]: [None] is the [nil] error.
    - The library functions follow the sources of the Go release the
      package was written for (Go 1.9): [utf8.DecodeRuneInString] with its
      tables [first] and [acceptRanges], [strings.FieldsFunc],
      [strings.Join], [strings.genSplit] and [strings.explode].  A slice
      that Go allocates and then fills at [a[na]], [na++] is a list that
      grows at its end.
    - What lies outside the package and has no code here (the file system,
      the asset store, the parser and the interpreter of the template
      engine, the TOML decoder, the Unicode range tables above Latin-1, the
      rule that compares a tag with a pattern) is a parameter, and a call
      to it returns.
    - A call that can panic has an [Outcome].  [template.Funcs] panics on
      a function map with a name that is no identifier or with a value it
      cannot install; its check ([addValueFuncs] and [goodName] of
      [text/template]) is embedded, the test of a foreign value being a
      parameter.
    - Go maps are objects: the function maps live in a store, by address,
      so that making a new map and writing to it can be told from writing
      to the map of the caller. *)

From Stdlib Require Import ZArith Ascii String Bool Lia.
From stdpp Require Import gmap strings list fin_maps.
From Equations Require Import Equations.

Local Open Scope Z_scope.

(** ** Go strings *)

Abbreviation gostring := (list ascii).

(** A string literal of the Go source, as its bytes. *)
Definition lit (s : string) : gostring := list_ascii_of_string s.

(** The value of a byte, [0 <= byteval b < 256]. *)
Definition byteval (b : ascii) : Z := Z.of_N (N_of_ascii b).

(** The byte with value [z mod 256]. *)
Definition byte (z : Z) : ascii := ascii_of_N (Z.to_N (z mod 256)).

(** ** The data model *)

(** Modelled from the spec: [types.Constraint] is declared in package
    [types], outside the file at hand.  The spec gives it a key, a value
    pattern and the [MustMatch] polarity that [MatchConstraints] reads. *)
Record Constraint := mkConstraint {
  Key : gostring;
  MustMatch : bool;
  Value : gostring
}.

(** [BaseProvider], with [types.Constraints] as the ordered sequence of the
    constraints its (non-nil) pointers refer to. *)
Record BaseProvider := mkBaseProvider {
  Watch : bool;
  Filename : gostring;
  Constraints : list Constraint;
  Trace : bool;
  DebugLogGeneratedTemplate : bool
}.

(** ** MatchConstraints *)

Section ConstraintMatcher.

(** The comparison of one tag with a constraint's pattern.  The spec leaves
    the rule open (exact or glob-like), so it is a parameter. *)
Variable tagMatches : gostring -> gostring -> bool.

(** Modelled from the spec: [Constraint.MatchConstraintWithAtLeastOneTag]
    is a method of package [types] and is missing from the sources; per
    the spec it computes "exists tag in tags such that tag satisfies
    constraint.value". *)
Definition MatchConstraintWithAtLeastOneTag (c : Constraint) (tags : list gostring) : bool :=
  existsb (tagMatches (Value c)) tags.

(** The [for _, constraint := range p.Constraints] loop. *)
Fixpoint matchEvery (tags : list gostring) (cs : list Constraint) : bool * option Constraint :=
  match cs with
  | [] => (true, None)
  | constraint :: rest =>
      let ok := MatchConstraintWithAtLeastOneTag constraint tags in
      if negb (eqb ok (MustMatch constraint))
      then (false, Some constraint)
      else matchEvery tags rest
  end.

(** The guard of the first [if]: no tags and no constraints. *)
Definition filteringDisabled (p : BaseProvider) (tags : list gostring) : bool :=
  (Z.of_nat (length tags) =? 0) && (Z.of_nat (length (Constraints p)) =? 0).

Definition MatchConstraints (p : BaseProvider) (tags : list gostring) : bool * option Constraint :=
  if filteringDisabled p tags then (true, None)
  else matchEvery tags (Constraints p).

(** The same function with the calls of [MatchConstraintWithAtLeastOneTag]
    recorded: the second component lists, in order, the constraints the
    loop has evaluated. *)
Fixpoint matchEveryLogged (tags : list gostring) (cs : list Constraint)
  : (bool * option Constraint) * list Constraint :=
  match cs with
  | [] => ((true, None), [])
  | constraint :: rest =>
      let ok := MatchConstraintWithAtLeastOneTag constraint tags in
      if negb (eqb ok (MustMatch constraint))
      then ((false, Some constraint), [constraint])
      else let '(r, log) := matchEveryLogged tags rest in (r, constraint :: log)
  end.

Definition MatchConstraintsLogged (p : BaseProvider) (tags : list gostring)
  : (bool * option Constraint) * list Constraint :=
  if filteringDisabled p tags then ((true, None), [])
  else matchEveryLogged tags (Constraints p).

(** The spec's words: some tag of the list matches the pattern of [c]. *)
Definition someTagMatches (tags : list gostring) (c : Constraint) : Prop :=
  exists tag, tag ∈ tags /\ tagMatches (Value c) tag = true.

(** The spec's words: [c] is satisfied iff [someTagMatches] equals the
    [MustMatch] flag. *)
Definition satisfied (tags : list gostring) (c : Constraint) : Prop :=
  someTagMatches tags c <-> MustMatch c = true.

End ConstraintMatcher.

(** ** unicode/utf8: decoding one rune *)

Definition RuneError : Z := 0xFFFD.
Definition MaxLatin1 : Z := 0xFF.

Definition maskx : Z := 0x3F.
Definition mask2 : Z := 0x1F.
Definition mask3 : Z := 0x0F.
Definition mask4 : Z := 0x07.
Definition locb : Z := 0x80.
Definition hicb : Z := 0xBF.

(** The information bytes of the table [first]. *)
Definition xx : Z := 0xF1.
Definition as_ : Z := 0xF0.
Definition s1 : Z := 0x02.
Definition s2 : Z := 0x13.
Definition s3 : Z := 0x03.
Definition s4 : Z := 0x23.
Definition s5 : Z := 0x34.
Definition s6 : Z := 0x04.
Definition s7 : Z := 0x44.

(** [first[b]]: information about the first byte of a UTF-8 sequence. *)
Definition first (b : Z) : Z :=
  if b <? 0x80 then as_
  else if b <? 0xC2 then xx
  else if b <? 0xE0 then s1
  else if b =? 0xE0 then s2
  else if b <? 0xED then s3
  else if b =? 0xED then s4
  else if b <? 0xF0 then s3
  else if b =? 0xF0 then s5
  else if b <? 0xF4 then s6
  else if b =? 0xF4 then s7
  else xx.

(** [acceptRanges[i]]: the range [(lo, hi)] allowed for the second byte;
    entries 5 to 15 of the Go array are zero values. *)
Definition acceptRanges (i : Z) : Z * Z :=
  match i with
  | 0 => (locb, hicb)
  | 1 => (0xA0, hicb)
  | 2 => (locb, 0x9F)
  | 3 => (0x90, hicb)
  | 4 => (locb, 0x8F)
  | _ => (0, 0)
  end.

(** Conversion to [int32] (a Go [rune]) with wrap-around. *)
Definition int32 (z : Z) : Z := (z + 2 ^ 31) mod 2 ^ 32 - 2 ^ 31.

(** The byte [s[i]]; [0] stands for a read past the end, which
    [DecodeRuneInString] never makes: it tests [n < sz] first. *)
Definition byteAt (s : gostring) (i : nat) : Z :=
  match s !! i with
  | Some c => byteval c
  | None => 0
  end.

(** The body of [utf8.DecodeRuneInString] for a string of [n >= 1] bytes
    that starts with the bytes [b0], [b1], [b2], [b3]. *)
Definition decodeBytes (n b0 b1 b2 b3 : Z) : Z * Z :=
  let x := first b0 in
  if as_ <=? x then
    let mask := Z.shiftr (int32 (Z.shiftl x 31)) 31 in
    (Z.lor (Z.land b0 (Z.lnot mask)) (Z.land RuneError mask), 1)
  else
    let sz := Z.land x 7 in
    let accept := acceptRanges (Z.shiftr x 4) in
    if n <? sz then (RuneError, 1)
    else if (b1 <? fst accept) || (snd accept <? b1) then (RuneError, 1)
    else if sz <=? 2 then
      (Z.lor (Z.shiftl (Z.land b0 mask2) 6) (Z.land b1 maskx), 2)
    else if (b2 <? locb) || (hicb <? b2) then (RuneError, 1)
    else if sz <=? 3 then
      (Z.lor (Z.lor (Z.shiftl (Z.land b0 mask3) 12) (Z.shiftl (Z.land b1 maskx) 6))
             (Z.land b2 maskx), 3)
    else if (b3 <? locb) || (hicb <? b3) then (RuneError, 1)
    else
      (Z.lor (Z.lor (Z.lor (Z.shiftl (Z.land b0 mask4) 18) (Z.shiftl (Z.land b1 maskx) 12))
                    (Z.shiftl (Z.land b2 maskx) 6))
             (Z.land b3 maskx), 4).

(** [utf8.DecodeRuneInString]: the first rune of [s] and its width in
    bytes; [(RuneError, 0)] on the empty string and [(RuneError, 1)] on an
    invalid encoding. *)
Definition DecodeRuneInString (s : gostring) : Z * Z :=
  let n := Z.of_nat (length s) in
  if n <? 1 then (RuneError, 0)
  else decodeBytes n (byteAt s 0) (byteAt s 1) (byteAt s 2) (byteAt s 3).

(** The loop [for i, r := range s]: the byte offset and the rune of every
    iteration, the string advancing by the width of the decoded rune.  The
    rest of the string is reached by cases on the width, which keeps the
    recursion structural; the last case is the width 1. *)
Fixpoint rangeFrom (i : Z) (s : gostring) : list (Z * Z) :=
  match s with
  | [] => []
  | _ :: t0 =>
      let '(r, size) := DecodeRuneInString s in
      (i, r) ::
      match size, t0 with
      | 4, _ :: _ :: _ :: t3 => rangeFrom (i + 4) t3
      | 3, _ :: _ :: t2 => rangeFrom (i + 3) t2
      | 2, _ :: t1 => rangeFrom (i + 2) t1
      | _, _ => rangeFrom (i + 1) t0
      end
  end.

Definition rangeString (s : gostring) : list (Z * Z) := rangeFrom 0 s.

(** [utf8.RuneCountInString]. *)
Definition RuneCountInString (s : gostring) : Z := Z.of_nat (length (rangeString s)).

(** The characters of a string as the spec speaks of them: each rune a
    [range] loop yields, with the bytes it was decoded from. *)
Fixpoint chars (s : gostring) : list (Z * gostring) :=
  match s with
  | [] => []
  | c0 :: t0 =>
      let '(r, size) := DecodeRuneInString s in
      match size, t0 with
      | 4, c1 :: c2 :: c3 :: t3 => (r, [c0; c1; c2; c3]) :: chars t3
      | 3, c1 :: c2 :: t2 => (r, [c0; c1; c2]) :: chars t2
      | 2, c1 :: t1 => (r, [c0; c1]) :: chars t1
      | _, _ => (r, [c0]) :: chars t0
      end
  end.

(** ** unicode: letters, numbers and digits *)

(** The range tables [unicode.Letter] (category L), [unicode.Number]
    (category N) and [unicode.Digit] (category Nd) of the Go library, as
    consulted by [isExcludingLatin] for runes above Latin-1: each is given
    as its membership test. *)
Record RangeTables := mkRangeTables {
  Letter : Z -> bool;
  Number : Z -> bool;
  Digit : Z -> bool
}.

(** Conversion to [uint32] with wrap-around. *)
Definition uint32 (z : Z) : Z := z mod 2 ^ 32.

Definition between (lo hi r : Z) : bool := (lo <=? r) && (r <=? hi).

(** The Latin-1 entries of the table [properties] that carry a letter bit
    ([pLu], [pLl] or [pLo]): A-Z, a-z, U+00AA, U+00B5, U+00BA, U+00C0-U+00D6,
    U+00D8-U+00F6 and U+00F8-U+00FF. *)
Definition latin1Letter (r : Z) : bool :=
  between 0x41 0x5A r || between 0x61 0x7A r
  || (r =? 0xAA) || (r =? 0xB5) || (r =? 0xBA)
  || between 0xC0 0xD6 r || between 0xD8 0xF6 r || between 0xF8 0xFF r.

(** The Latin-1 entries of [properties] that carry the number bit [pN]:
    0-9, the superscripts U+00B2, U+00B3, U+00B9 and the fractions
    U+00BC-U+00BE. *)
Definition latin1Number (r : Z) : bool :=
  between 0x30 0x39 r
  || (r =? 0xB2) || (r =? 0xB3) || (r =? 0xB9) || between 0xBC 0xBE r.

Section Unicode.

Variable tables : RangeTables.

Definition IsLetter (r : Z) : bool :=
  if uint32 r <=? MaxLatin1 then latin1Letter (uint32 r) else Letter tables r.

Definition IsNumber (r : Z) : bool :=
  if uint32 r <=? MaxLatin1 then latin1Number (uint32 r) else Number tables r.

Definition IsDigit (r : Z) : bool :=
  if r <=? MaxLatin1 then (0x30 <=? r) && (r <=? 0x39) else Digit tables r.

End Unicode.

(** ** strings: FieldsFunc, Join, Index, Count, Split, HasSuffix *)

(** The slice expression [s[lo:hi]]. *)
Definition slice (s : gostring) (lo hi : Z) : gostring :=
  take (Z.to_nat (hi - lo)) (drop (Z.to_nat lo) s).

(** One iteration of the loop of [strings.FieldsFunc] over [(i, rune)]:
    the state is the fields found so far and [fieldStart], which is [-1]
    while the loop looks for the start of a field. *)
Definition fieldsStep (s : gostring) (f : Z -> bool)
  (st : list gostring * Z) (ir : Z * Z) : list gostring * Z :=
  let '(a, fieldStart) := st in
  let '(i, rune) := ir in
  if f rune then
    if 0 <=? fieldStart then (a ++ [slice s fieldStart i], -1)
    else (a, fieldStart)
  else if fieldStart =? -1 then (a, i)
  else (a, fieldStart).

(** [strings.FieldsFunc]: the loop over the runes of [s], then the field
    that ends with the string. *)
Definition FieldsFunc (s : gostring) (f : Z -> bool) : list gostring :=
  let '(a, fieldStart) := fold_left (fieldsStep s f) (rangeString s) ([], -1) in
  if 0 <=? fieldStart
  then a ++ [slice s fieldStart (Z.of_nat (length s))]
  else a.

(** [strings.Join]. *)
Definition Join (a : list gostring) (sep : gostring) : gostring :=
  match a with
  | [] => []
  | a0 :: rest => fold_left (fun b s => b ++ sep ++ s) rest a0
  end.

(** [strings.HasPrefix] and [strings.HasSuffix]. *)
Definition HasPrefix (s prefix : gostring) : bool :=
  (Z.of_nat (length prefix) <=? Z.of_nat (length s))
  && bool_decide (slice s 0 (Z.of_nat (length prefix)) = prefix).

Definition HasSuffix (s suffix : gostring) : bool :=
  (Z.of_nat (length suffix) <=? Z.of_nat (length s))
  && bool_decide (drop (length s - length suffix) s = suffix).

(** [strings.Index]: the offset of the first instance of [substr] in [s],
    or [-1]. *)
Fixpoint Index (s substr : gostring) : Z :=
  if HasPrefix s substr then 0
  else
    match s with
    | [] => -1
    | _ :: t => let m := Index t substr in if m <? 0 then -1 else m + 1
    end.

(** The counting loop of [strings.Count] for a separator [c :: cs]:
    [for { i := Index(s, substr); if i == -1 { return n }; n++;
    s = s[i+len(substr):] }]. *)
Equations? countLoop (c : ascii) (cs : gostring) (s : gostring) (n : Z) : Z
  by wf (length s) lt :=
countLoop c cs s n with decide (Index s (c :: cs) = -1) := {
  | left _ => n;
  | right _ =>
      countLoop c cs (drop (Z.to_nat (Index s (c :: cs) + Z.of_nat (length (c :: cs)))) s) (n + 1) }.
Proof.
  assert (Hge : forall t, -1 <= Index t (c :: cs)).
  { induction t as [|b t IH]; cbn [Index].
    - destruct (HasPrefix [] (c :: cs)); lia.
    - destruct (HasPrefix (b :: t) (c :: cs)); [lia|].
      destruct (Index t (c :: cs) <? 0) eqn:E; lia. }
  specialize (Hge s).
  destruct s as [|b t].
  - exfalso. apply n0. reflexivity.
  - rewrite length_drop. cbn [length] in *. lia.
Qed.

(** [strings.Count]: the number of non-overlapping instances of [substr]. *)
Definition Count (s substr : gostring) : Z :=
  match substr with
  | [] => RuneCountInString s + 1
  | c :: cs => countLoop c cs s 0
  end.

(** [string(utf8.RuneError)]: the encoding of U+FFFD. *)
Definition runeErrorString : gostring := [byte 0xEF; byte 0xBF; byte 0xBD].

(** The loop [for i := 0; i < n-1; i++] of [strings.explode], run [k]
    times: [a] holds the pieces [a[0..i)], [s] is what is left.  This is
    the loop of Go 1.9, where an invalid byte gives the piece
    [string(utf8.RuneError)]; later releases of the library keep the byte
    itself. *)
Fixpoint explodeLoop (k : nat) (s : gostring) (a : list gostring) : list gostring * gostring :=
  match k with
  | O => (a, s)
  | S k' =>
      let '(ch, size) := DecodeRuneInString s in
      let piece := if ch =? RuneError then runeErrorString else slice s 0 size in
      explodeLoop k' (drop (Z.to_nat size) s) (a ++ [piece])
  end.

(** [strings.explode]: one string per rune, at most [n] of them. *)
Definition explode (s : gostring) (n : Z) : list gostring :=
  let l := RuneCountInString s in
  let n := if (n <? 0) || (l <? n) then l else n in
  let '(a, rest) := explodeLoop (Z.to_nat (n - 1)) s [] in
  if 0 <? n then a ++ [rest] else a.

(** The loop [for i < n] of [strings.genSplit], run at most [k] times. *)
Fixpoint splitLoop (k : nat) (s sep : gostring) (sepSave : Z) (a : list gostring)
  : list gostring * gostring :=
  match k with
  | O => (a, s)
  | S k' =>
      let m := Index s sep in
      if m <? 0 then (a, s)
      else splitLoop k' (drop (Z.to_nat (m + Z.of_nat (length sep))) s) sep sepSave
             (a ++ [slice s 0 (m + sepSave)])
  end.

(** [strings.genSplit]. *)
Definition genSplit (s sep : gostring) (sepSave n : Z) : list gostring :=
  if n =? 0 then []
  else if bool_decide (sep = []) then explode s n
  else
    let n := if n <? 0 then Count s sep + 1 else n in
    let '(a, rest) := splitLoop (Z.to_nat (n - 1)) s sep sepSave [] in
    a ++ [rest].

(** [strings.Split]. *)
Definition Split (s sep : gostring) : list gostring := genSplit s sep 0 (-1).

(** ** The string transforms of the package *)

Definition split (sep s : gostring) : list gostring := Split s sep.

Section Normalize.

Variable tables : RangeTables.

(** The closure [fargs] of [Normalize]. *)
Definition fargs (c : Z) : bool := negb (IsLetter tables c) && negb (IsNumber tables c).

Definition Normalize (name : gostring) : gostring :=
  Join (FieldsFunc name fargs) (lit "-").

End Normalize.

(** The element [l[i]] of a slice; [None] stands for the run-time panic on
    an index out of range. *)
Definition elemAt {A : Type} (l : list A) (i : Z) : option A :=
  if i <? 0 then None else l !! Z.to_nat i.

(** The parallel assignment [l[i], l[j] = l[j], l[i]]. *)
Definition swap {A : Type} (l : list A) (i j : Z) : option (list A) :=
  x ← elemAt l i;
  y ← elemAt l j;
  Some (<[Z.to_nat j := x]> (<[Z.to_nat i := y]> l)).

(** The loop [for i, j := 0, len-1; i < j; i, j = i+1, j-1] of
    [ReverseStringSlice], on the contents of the slice. *)
Equations? reverseLoop (l : list gostring) (i j : Z) : option (list gostring)
  by wf (Z.to_nat (j - i)) lt :=
reverseLoop l i j with decide (i < j) := {
  | left _ with swap l i j := {
      | Some l' => reverseLoop l' (i + 1) (j - 1);
      | None => None };
  | right _ => Some l }.
Proof. lia. Qed.

(** [ReverseStringSlice]: the contents of [*slice] after the call, or [None]
    if an index were out of range. *)
Definition ReverseStringSlice (l : list gostring) : option (list gostring) :=
  reverseLoop l 0 (Z.of_nat (length l) - 1).

(** ** The spec's description of [Normalize] *)

(** Splitting a sequence of characters at every character that satisfies
    [sep]; a run of separators leaves empty fragments. *)
Fixpoint splitAtSeparators (sep : Z -> bool) (cs : list (Z * gostring)) : list gostring :=
  match cs with
  | [] => [[]]
  | (r, bytes) :: rest =>
      if sep r then [] :: splitAtSeparators sep rest
      else
        match splitAtSeparators sep rest with
        | frag :: frags => (bytes ++ frag) :: frags
        | [] => [bytes]
        end
  end.

Definition discardEmpty (frags : list gostring) : list gostring :=
  filter (fun frag => frag ≠ []) frags.

Fixpoint joinWith (sep : gostring) (frags : list gostring) : gostring :=
  match frags with
  | [] => []
  | [frag] => frag
  | frag :: rest => frag ++ sep ++ joinWith sep rest
  end.

(** The spec's "literal substring split" of [s] on [sep]: the pieces joined
    with [sep] give back [s], and no piece contains [sep]. *)
Definition literalSplit (sep s : gostring) (pieces : list gostring) : Prop :=
  joinWith sep pieces = s /\ Forall (fun piece => Index piece sep = -1) pieces.

(** The spec's [Normalize], for a given notion of separator character. *)
Definition normalizeSpec (sep : Z -> bool) (s : gostring) : gostring :=
  joinWith (lit "-") (discardEmpty (splitAtSeparators sep (chars s))).

(** "neither a Unicode letter nor a Unicode digit". *)
Definition neitherLetterNorDigit (tables : RangeTables) (r : Z) : bool :=
  negb (IsLetter tables r) && negb (IsDigit tables r).

(** "neither a Unicode letter nor a Unicode number". *)
Definition neitherLetterNorNumber (tables : RangeTables) (r : Z) : bool :=
  negb (IsLetter tables r) && negb (IsNumber tables r).

(** The ASCII letters and digits. *)
Definition asciiAlnum (b : Z) : bool :=
  between 0x30 0x39 b || between 0x41 0x5A b || between 0x61 0x7A b.

(** "[s] ends with [suffix]". *)
Definition endsWith (s suffix : gostring) : Prop := exists stem, s = stem ++ suffix.

(** A tag matches a pattern when it equals it: the simplest matching rule,
    used in the examples. *)
Definition exactMatch (pattern tag : gostring) : bool := bool_decide (pattern = tag).

(** Range tables without entries, for inputs within Latin-1. *)
Definition latin1Only : RangeTables :=
  mkRangeTables (fun _ => false) (fun _ => false) (fun _ => false).

(** ** Notions used to reason about [FieldsFunc] *)

(** The fields of a sequence of characters, [cur] being the field under
    construction when the sequence starts. *)
Fixpoint fieldsFrom (sep : Z -> bool) (cur : option gostring) (cs : list (Z * gostring))
  : list gostring :=
  match cs with
  | [] => match cur with Some f => [f] | None => [] end
  | (r, bytes) :: rest =>
      if sep r
      then match cur with Some f => [f] | None => [] end ++ fieldsFrom sep None rest
      else fieldsFrom sep (Some (match cur with Some f => f ++ bytes | None => bytes end)) rest
  end.

(** A string that is empty or starts with an ASCII byte. *)
Definition asciiHead (t : gostring) : Prop :=
  match t with
  | [] => True
  | c :: _ => byteval c < 0x80
  end.

(** [w] is read as the characters [cs] whenever it is followed by the end
    of the string or by an ASCII byte. *)
Definition readsAs (w : gostring) (cs : list (Z * gostring)) : Prop :=
  forall t, asciiHead t -> chars (w ++ t) = cs ++ chars t.

(** A word: the bytes of one or more characters, none a separator, that
    are read back as these characters. *)
Definition word (sep : Z -> bool) (w : gostring) : Prop :=
  exists cs, cs <> [] /\ concat (map snd cs) = w
             /\ Forall (fun c => sep (fst c) = false) cs /\ readsAs w cs.

(** ** Template function maps *)

(** The values of a [template.FuncMap]: the three functions the package
    installs itself, and any other function ([F] stands for the functions
    of sprig and of the caller). *)
Inductive Callable (F : Type) : Type :=
| strings_ToLower
| provider_Normalize
| provider_split
| Foreign (f : F).

Arguments strings_ToLower {F}.
Arguments provider_Normalize {F}.
Arguments provider_split {F}.
Arguments Foreign {F} f.

(** A template before parsing: its name and the functions installed in it
    ([template.New(name).Funcs(funcs)]). *)
Record Template (F : Type) := mkTemplate {
  tmplName : gostring;
  tmplFuncs : gmap gostring (Callable F)
}.

Arguments mkTemplate {F}.
Arguments tmplName {F}.
Arguments tmplFuncs {F}.

(** What a call comes to: it returns, or it panics. *)
Inductive Outcome (A : Type) : Type :=
| Returned (a : A)
| Panicked.

Arguments Returned {A} a.
Arguments Panicked {A}.

(** The loop body of [goodName] of [text/template] for the rune [r] at
    byte offset [i]: an underscore passes; at offset 0 anything else must be
    a letter; elsewhere it must be a letter or a digit. *)
Definition goodRune (tables : RangeTables) (i r : Z) : bool :=
  if r =? 0x5F then true
  else if (i =? 0) && negb (IsLetter tables r) then false
  else if negb (IsLetter tables r) && negb (IsDigit tables r) then false
  else true.

(** [goodName]: whether a function name is a valid identifier. *)
Definition goodName (tables : RangeTables) (name : gostring) : bool :=
  if bool_decide (name = []) then false
  else forallb (fun ir => goodRune tables (fst ir) (snd ir)) (rangeString name).

(** ** Function maps as objects *)

(** A Go map is a reference to an object.  The store holds the contents of
    the function maps in existence, by address; an address without an
    object stands for the [nil] map, which has no entries. *)
Abbreviation Store F := (gmap positive (gmap gostring (Callable F))).

(** The entries a [range] over the map at an address goes through. *)
Definition entriesOf {F : Type} (store : Store F) (m : positive)
  : gmap gostring (Callable F) :=
  default ∅ (store !! m).

(** A new map with the given contents, at an address not in use. *)
Definition newMap {F : Type} (contents : gmap gostring (Callable F)) (store : Store F)
  : positive * Store F :=
  let m := fresh (dom store) in (m, <[m := contents]> store).

(** The assignment [m[key] = value] to a map that exists (the maps assigned
    to below are the ones just made, never [nil]). *)
Definition assign {F : Type} (m : positive) (key : gostring) (value : Callable F)
  (store : Store F) : Store F :=
  alter (<[key := value]>) m store.

(** ** Calls to the outside, recorded *)

(** The calls [GetConfiguration] makes to the file system, the asset store,
    the template engine, the logger and the TOML decoder. *)
Inductive Event (F : Type) : Type :=
| EvReadFile (filename : gostring)
| EvAsset (name : gostring)
| EvParse (tmpl : Template F) (text : gostring)
| EvExecute (tmpl : Template F)
| EvDebugf (name rendered : gostring)
| EvDecode (rendered : gostring).

Arguments EvReadFile {F}.
Arguments EvAsset {F}.
Arguments EvParse {F}.
Arguments EvExecute {F}.
Arguments EvDebugf {F}.
Arguments EvDecode {F}.

(** A computation that appends the calls it makes to a trace. *)
Definition Run (F A : Type) : Type := list (Event F) -> A * list (Event F).

#[global] Instance Run_ret {F} : MRet (Run F) := fun A a tr => (a, tr).

#[global] Instance Run_bind {F} : MBind (Run F) :=
  fun A B k m tr => let '(a, tr') := m tr in k a tr'.

(** An outside call: its result is returned and the call is recorded. *)
Definition call {F A : Type} (e : Event F) (result : A) : Run F A :=
  fun tr => (result, tr ++ [e]).

(** Running a computation from the empty trace. *)
Definition run {F A : Type} (m : Run F A) : A * list (Event F) := m [].

(** The template an event of the template engine is about. *)
Definition templateOf {F : Type} (ev : Event F) : option (Template F) :=
  match ev with
  | EvParse tmpl _ => Some tmpl
  | EvExecute tmpl => Some tmpl
  | _ => None
  end.

(** The calls of [log.Debugf] made when [DebugLogGeneratedTemplate] is set. *)
Definition debugTrace {F : Type} (p : BaseProvider) (name rendered : gostring)
  : list (Event F) :=
  if DebugLogGeneratedTemplate p then [EvDebugf name rendered] else [].

(** The events of the logger. *)
Definition isDebugf {F : Type} (ev : Event F) : bool :=
  match ev with
  | EvDebugf _ _ => true
  | _ => false
  end.

(** The events of the decoder. *)
Definition isDecode {F : Type} (ev : Event F) : bool :=
  match ev with
  | EvDecode _ => true
  | _ => false
  end.

(** A trace without the calls of the logger. *)
Definition withoutDebugf {F : Type} (trace : list (Event F)) : list (Event F) :=
  List.filter (fun ev => negb (isDebugf ev)) trace.

Section Synthesizer.

(** Errors, parsed templates, [types.Configuration], the template data and
    the functions of foreign packages. *)
Context {Error Tree Configuration Objects F : Type}.

(** [ioutil.ReadFile] and [gentemplates.Asset]: contents and error. *)
Variable ioutil_ReadFile : gostring -> gostring * option Error.
Variable gentemplates_Asset : gostring -> gostring * option Error.

(** [sprig.TxtFuncMap()]: a new map on every call, holding a copy of the
    functions of the library; these are its contents. *)
Variable sprig_TxtFuncMap : gmap gostring (Callable F).

(** The Unicode range tables, which [goodName] consults. *)
Variable tables : RangeTables.

(** Whether [text/template] can install a foreign value: it is a function
    ([reflect.Func]) with one result, or with two results of which the
    second is an [error] ([goodFunc]). *)
Variable template_goodFunc : F -> bool.

(** [tmpl.Parse(text)]: the parse tree and the error. *)
Variable template_Parse : Template F -> gostring -> Tree * option Error.

(** [tmpl.Execute(&buffer, data)]: what was written to the buffer, and the
    error. *)
Variable template_Execute : Template F -> Tree -> Objects -> gostring * option Error.

(** [toml.Decode(data, v)]: the contents of [*v] after the call, possibly
    half-populated when decoding fails, and the error. *)
Variable toml_Decode : gostring -> Configuration -> Configuration * option Error.

(** [new(types.Configuration)]. *)
Variable new_Configuration : Configuration.

(** The contents of the function map [GetConfiguration] builds in
    [defaultFuncMap], from the contents of the caller's map. *)
Definition defaultFuncMap (funcMap : gmap gostring (Callable F)) : gmap gostring (Callable F) :=
  let m := sprig_TxtFuncMap in
  let m := <[lit "tolower" := strings_ToLower]> m in
  let m := <[lit "normalize" := provider_Normalize]> m in
  let m := <[lit "split" := provider_split]> m in
  map_fold (fun funcID funcElement m => <[funcID := funcElement]> m) m funcMap.

(** The same lines 57 to 64 on the store: [sprig.TxtFuncMap()] makes a new
    map, the three assignments and the loop over the caller's map, which is
    given by its address, write into it.  The result is the address of the
    map built and the store it leaves. *)
Definition buildFuncMap (funcMap : positive) (store : Store F) : positive * Store F :=
  let '(m, store) := newMap sprig_TxtFuncMap store in
  let store := assign m (lit "tolower") strings_ToLower store in
  let store := assign m (lit "normalize") provider_Normalize store in
  let store := assign m (lit "split") provider_split store in
  let store :=
    map_fold (fun funcID funcElement store => assign m funcID funcElement store)
      store (entriesOf store funcMap) in
  (m, store).

(** The check of [addValueFuncs] on a value: [strings.ToLower], [Normalize]
    and [split] are functions with one result. *)
Definition goodValue (fn : Callable F) : bool :=
  match fn with
  | Foreign f => template_goodFunc f
  | _ => true
  end.

(** [addValueFuncs(out, in)] of [text/template]: every entry of [in] is
    checked and put into [out]; a name that is no identifier and a value
    that cannot be installed make it panic. *)
Definition addValueFuncs (out in_ : gmap gostring (Callable F))
  : Outcome (gmap gostring (Callable F)) :=
  map_fold (fun name fn out =>
              match out with
              | Panicked => Panicked
              | Returned out =>
                  if negb (goodName tables name) then Panicked
                  else if negb (goodValue fn) then Panicked
                  else Returned (<[name := fn]> out)
              end)
    (Returned out) in_.

(** [template.New(name)]: a template without functions of its own. *)
Definition template_New (name : gostring) : Template F := mkTemplate name ∅.

(** [t.Funcs(funcMap)]: the template with the functions added, or the panic
    of [addValueFuncs]. *)
Definition template_Funcs (t : Template F) (funcMap : gmap gostring (Callable F))
  : Outcome (Template F) :=
  match addValueFuncs (tmplFuncs t) funcMap with
  | Panicked => Panicked
  | Returned execFuncs => Returned (mkTemplate (tmplName t) execFuncs)
  end.

(** The function maps every entry of which [text/template] accepts: the
    name is an identifier and the value can be installed. *)
Definition installable (funcMap : gmap gostring (Callable F)) : Prop :=
  map_Forall (fun name fn => goodName tables name && goodValue fn = true) funcMap.

#[global] Instance installable_dec (funcMap : gmap gostring (Callable F))
  : Decision (installable funcMap).
Proof. apply map_Forall_dec. intros name fn. cbv beta. apply _. Defined.

Definition getTemplateContent (p : BaseProvider) (defaultTemplateFile : gostring)
  : Run F (gostring * option Error) :=
  if 0 <? Z.of_nat (length (Filename p)) then
    '(buf, err) ← call (EvReadFile (Filename p)) (ioutil_ReadFile (Filename p));
    match err with
    | Some e => mret ([], Some e)
    | None => mret (buf, None)
    end
  else if HasSuffix defaultTemplateFile (lit ".tmpl") then
    '(buf, err) ← call (EvAsset defaultTemplateFile) (gentemplates_Asset defaultTemplateFile);
    match err with
    | Some e => mret ([], Some e)
    | None => mret (buf, None)
    end
  else mret (defaultTemplateFile, None).

(** [GetConfiguration].  The caller's function map is given by its address
    [funcMap] in [store].  The result is what the call comes to, either the
    pair it returns or the panic of [Funcs], and the store it leaves. *)
Definition GetConfiguration (p : BaseProvider) (defaultTemplateFile : gostring)
  (funcMap : positive) (templateObjects : Objects) (store : Store F)
  : Run F (Outcome (option Configuration * option Error) * Store F) :=
  let configuration := new_Configuration in
  let '(m, store) := buildFuncMap funcMap store in
  outcome ←
    match template_Funcs (template_New (Filename p)) (entriesOf store m) with
    | Panicked => mret Panicked
    | Returned tmpl =>
        '(tmplContent, err) ← getTemplateContent p defaultTemplateFile;
        match err with
        | Some e => mret (Returned (None, Some e))
        | None =>
            '(tree, err) ← call (EvParse tmpl tmplContent) (template_Parse tmpl tmplContent);
            match err with
            | Some e => mret (Returned (None, Some e))
            | None =>
                '(renderedTemplate, err) ← call (EvExecute tmpl)
                                             (template_Execute tmpl tree templateObjects);
                match err with
                | Some e => mret (Returned (None, Some e))
                | None =>
                    _ ← (if DebugLogGeneratedTemplate p
                         then call (EvDebugf defaultTemplateFile renderedTemplate) tt
                         else mret tt);
                    '(configuration, err) ← call (EvDecode renderedTemplate)
                                              (toml_Decode renderedTemplate configuration);
                    match err with
                    | Some e => mret (Returned (None, Some e))
                    | None => mret (Returned (Some configuration, None))
                    end
                end
            end
        end
    end;
  mret (outcome, store).

End Synthesizer.

(** ** Example inputs *)

(** Three constraints on the tags "a", "b" and "c", the last a "must not
    match". *)
Definition mustA : Constraint := mkConstraint (lit "tag") true (lit "a").
Definition mustB : Constraint := mkConstraint (lit "tag") true (lit "b").
Definition mustNotC : Constraint := mkConstraint (lit "tag") false (lit "c").

Definition constrainedProvider : BaseProvider :=
  mkBaseProvider false [] [mustA; mustB; mustNotC] false false.

Definition negativeProvider : BaseProvider :=
  mkBaseProvider false [] [mustNotC; mustB; mustA] false false.

Definition plainProvider : BaseProvider := mkBaseProvider false [] [] false false.

(** A provider whose template file cannot be read. *)
Definition overridingProvider : BaseProvider :=
  mkBaseProvider false (lit "/missing/rules.tmpl") [] false true.

(** A file system without files, an asset store with one text for every
    name, and a template engine and decoder that hand their input on. *)
Definition noFile (name : gostring) : gostring * option gostring :=
  ([], Some (lit "no such file")).

Definition anyAsset (name : gostring) : gostring * option gostring :=
  (lit "[backends]", None).

Definition parseVerbatim (tmpl : Template unit) (text : gostring) : gostring * option gostring :=
  (text, None).

Definition executeVerbatim (tmpl : Template unit) (tree : gostring) (data : unit)
  : gostring * option gostring :=
  (tree, None).

Definition decodeVerbatim (rendered configuration : gostring) : gostring * option gostring :=
  (rendered, None).

(** A caller's function map that redefines "normalize". *)
Definition callerFuncs : gmap gostring (Callable unit) :=
  {[ lit "normalize" := Foreign tt ]}.

(** The store of a caller that holds [callerFuncs] at address 1. *)
Definition callerStore : Store unit := {[ 1%positive := callerFuncs ]}.

(** A caller's function map with a name that is no identifier, and the
    store that holds it at address 1. *)
Definition badFuncs : gmap gostring (Callable unit) :=
  {[ lit "bad-name" := Foreign tt ]}.

Definition badStore : Store unit := {[ 1%positive := badFuncs ]}.

(** A template engine that can install every foreign value. *)
Definition anyFunc (f : unit) : bool := true.

(** Two constraint sets that make up the one of [constrainedProvider]. *)
Definition headProvider : BaseProvider := mkBaseProvider false [] [mustA] false false.

Definition tailProvider : BaseProvider :=
  mkBaseProvider true (lit "rules.toml") [mustB; mustNotC] true false.

(** A provider that reads its template from the asset store, without and
    with the debug log. *)
Definition quietProvider : BaseProvider := mkBaseProvider false [] [] false false.

Definition verboseProvider : BaseProvider := mkBaseProvider true [] [mustA] true true.

(** * Properties *)

(** ** MatchConstraints *)

Section ConstraintMatcherFacts.

Variable tagMatches : gostring -> gostring -> bool.

Lemma MatchConstraintWithAtLeastOneTag_true (c : Constraint) (tags : list gostring) :
  MatchConstraintWithAtLeastOneTag tagMatches c tags = true <-> someTagMatches tagMatches tags c.
Proof.
  unfold MatchConstraintWithAtLeastOneTag, someTagMatches.
  rewrite existsb_exists. split; intros (tag & Hin & Hm); exists tag; split; auto.
  - now apply list_elem_of_In.
  - now apply list_elem_of_In.
Qed.

(** The test of the loop body fails exactly on the satisfied constraints. *)
Lemma mismatch_false_iff (c : Constraint) (tags : list gostring) :
  negb (eqb (MatchConstraintWithAtLeastOneTag tagMatches c tags) (MustMatch c)) = false
  <-> satisfied tagMatches tags c.
Proof.
  unfold satisfied. rewrite <- MatchConstraintWithAtLeastOneTag_true.
  destruct (MatchConstraintWithAtLeastOneTag tagMatches c tags), (MustMatch c);
    simpl; intuition congruence.
Qed.

Lemma mismatch_true_iff (c : Constraint) (tags : list gostring) :
  negb (eqb (MatchConstraintWithAtLeastOneTag tagMatches c tags) (MustMatch c)) = true
  <-> ~ satisfied tagMatches tags c.
Proof.
  rewrite <- mismatch_false_iff.
  destruct (negb _); intuition congruence.
Qed.

(** Erasing the log gives back the function. *)
Lemma matchEveryLogged_fst (tags : list gostring) (cs : list Constraint) :
  fst (matchEveryLogged tagMatches tags cs) = matchEvery tagMatches tags cs.
Proof.
  induction cs as [|c cs IH]; simpl; [reflexivity|].
  destruct (negb _); [reflexivity|].
  destruct (matchEveryLogged tagMatches tags cs) as [r log]. exact IH.
Qed.

Lemma MatchConstraintsLogged_fst (p : BaseProvider) (tags : list gostring) :
  fst (MatchConstraintsLogged tagMatches p tags) = MatchConstraints tagMatches p tags.
Proof.
  unfold MatchConstraintsLogged, MatchConstraints.
  destruct (filteringDisabled p tags); [reflexivity|apply matchEveryLogged_fst].
Qed.

(** The loop stops at the first unsatisfied constraint, whatever follows. *)
Lemma matchEveryLogged_stops (tags : list gostring) (pre post : list Constraint) (c : Constraint) :
  Forall (satisfied tagMatches tags) pre ->
  ~ satisfied tagMatches tags c ->
  matchEveryLogged tagMatches tags (pre ++ c :: post) = ((false, Some c), pre ++ [c]).
Proof.
  intros Hpre Hc. induction Hpre as [|d pre Hd _ IH]; simpl.
  - apply mismatch_true_iff in Hc. rewrite Hc. reflexivity.
  - apply mismatch_false_iff in Hd. rewrite Hd, IH. reflexivity.
Qed.

Lemma matchEveryLogged_all (tags : list gostring) (cs : list Constraint) :
  Forall (satisfied tagMatches tags) cs ->
  matchEveryLogged tagMatches tags cs = ((true, None), cs).
Proof.
  induction 1 as [|d cs Hd _ IH]; simpl; [reflexivity|].
  apply mismatch_false_iff in Hd. rewrite Hd, IH. reflexivity.
Qed.

(** A constraint set either has a first unsatisfied constraint or none. *)
Lemma first_unsatisfied (tags : list gostring) (cs : list Constraint) :
  Forall (satisfied tagMatches tags) cs
  \/ exists pre c post, cs = pre ++ c :: post
       /\ Forall (satisfied tagMatches tags) pre /\ ~ satisfied tagMatches tags c.
Proof.
  induction cs as [|d cs IH]; [left; constructor|].
  destruct (negb (eqb (MatchConstraintWithAtLeastOneTag tagMatches d tags) (MustMatch d))) eqn:E.
  - right. exists [], d, cs. repeat split; [constructor|now apply mismatch_true_iff].
  - apply mismatch_false_iff in E. destruct IH as [IH|(pre & c & post & -> & Hpre & Hc)].
    + left. now constructor.
    + right. exists (d :: pre), c, post. repeat split; [now constructor|assumption].
Qed.

Lemma filteringDisabled_true (p : BaseProvider) (tags : list gostring) :
  filteringDisabled p tags = true <-> tags = [] /\ Constraints p = [].
Proof.
  unfold filteringDisabled. rewrite andb_true_iff, !Z.eqb_eq.
  destruct tags, (Constraints p); simpl; intuition (try lia; try discriminate).
Qed.

Lemma MatchConstraintsLogged_stops (p : BaseProvider) (tags : list gostring)
  (pre post : list Constraint) (c : Constraint) :
  Constraints p = pre ++ c :: post ->
  Forall (satisfied tagMatches tags) pre ->
  ~ satisfied tagMatches tags c ->
  MatchConstraintsLogged tagMatches p tags = ((false, Some c), pre ++ [c]).
Proof.
  intros Hcs Hpre Hc. unfold MatchConstraintsLogged.
  destruct (filteringDisabled p tags) eqn:E.
  - apply filteringDisabled_true in E as [_ E]. rewrite Hcs in E.
    destruct pre; discriminate.
  - rewrite Hcs. now apply matchEveryLogged_stops.
Qed.

Lemma MatchConstraintsLogged_all (p : BaseProvider) (tags : list gostring) :
  Forall (satisfied tagMatches tags) (Constraints p) ->
  MatchConstraintsLogged tagMatches p tags = ((true, None), Constraints p).
Proof.
  intros Hall. unfold MatchConstraintsLogged.
  destruct (filteringDisabled p tags) eqn:E.
  - apply filteringDisabled_true in E as [_ ->]. reflexivity.
  - now apply matchEveryLogged_all.
Qed.

(** C1. [MatchConstraints] evaluates the constraints in order, a
    constraint being satisfied iff "some tag matches its pattern" agrees
    with its [MustMatch] flag.  If the constraint set is [pre ++ c :: post]
    with every constraint of [pre] satisfied and [c] not, the result is
    [(false, c)] and exactly [pre] and [c] have been evaluated, nothing of
    [post]; if every constraint is satisfied, which includes no
    constraints at all, the result is [(true, nil)]. *)
Theorem MatchConstraints_first_unsatisfied (p : BaseProvider) (tags : list gostring) :
  (forall pre c post,
      Constraints p = pre ++ c :: post ->
      Forall (satisfied tagMatches tags) pre ->
      ~ satisfied tagMatches tags c ->
      MatchConstraints tagMatches p tags = (false, Some c)
      /\ snd (MatchConstraintsLogged tagMatches p tags) = pre ++ [c])
  /\ (Forall (satisfied tagMatches tags) (Constraints p) ->
      MatchConstraints tagMatches p tags = (true, None)
      /\ snd (MatchConstraintsLogged tagMatches p tags) = Constraints p).
Proof.
  split.
  - intros pre c post Hcs Hpre Hc.
    rewrite <- MatchConstraintsLogged_fst.
    rewrite (MatchConstraintsLogged_stops p tags pre post c Hcs Hpre Hc). split; reflexivity.
  - intros Hall. rewrite <- MatchConstraintsLogged_fst.
    rewrite (MatchConstraintsLogged_all p tags Hall). split; reflexivity.
Qed.

(** C6. [MatchConstraints] never fails: with no tags and no constraints it
    returns [(true, nil)], and on every input it returns a boolean and an
    optional constraint, the constraint being absent exactly when the
    boolean is [true] and otherwise one of the constraints of the set. *)
Theorem MatchConstraints_never_fails (p : BaseProvider) (tags : list gostring) :
  (tags = [] -> Constraints p = [] -> MatchConstraints tagMatches p tags = (true, None))
  /\ exists (matched : bool) (failing : option Constraint),
       MatchConstraints tagMatches p tags = (matched, failing)
       /\ (matched = true <-> failing = None)
       /\ (forall c, failing = Some c -> c ∈ Constraints p).
Proof.
  split.
  - intros Ht Hc. unfold MatchConstraints.
    replace (filteringDisabled p tags) with true; [reflexivity|].
    symmetry. apply filteringDisabled_true. now split.
  - rewrite <- MatchConstraintsLogged_fst.
    destruct (first_unsatisfied tags (Constraints p)) as [Hall|(pre & c & post & Hcs & Hpre & Hc)].
    + rewrite (MatchConstraintsLogged_all p tags Hall). exists true, None.
      repeat split; intros; congruence.
    + rewrite (MatchConstraintsLogged_stops p tags pre post c Hcs Hpre Hc).
      exists false, (Some c). simpl. repeat split; try congruence.
      intros d [= <-]. rewrite Hcs. apply elem_of_app. right. constructor.
Qed.

Lemma no_tag_matches (c : Constraint) : ~ someTagMatches tagMatches [] c.
Proof. intros (tag & Hin & _). inversion Hin. Qed.

Lemma satisfied_no_tags (c : Constraint) :
  satisfied tagMatches [] c <-> MustMatch c = false.
Proof.
  unfold satisfied. pose proof (no_tag_matches c).
  destruct (MustMatch c); intuition congruence.
Qed.

(** C10. With no tags and at least one constraint the first branch is not
    taken: the existence test is false for every constraint, the result is
    [(false, c)] for the first constraint [c] with [MustMatch = true], the
    constraints up to [c] having been evaluated, and the result is
    [(true, nil)] exactly when every constraint has [MustMatch = false]. *)
Theorem MatchConstraints_no_tags (p : BaseProvider) :
  Constraints p <> [] ->
  filteringDisabled p [] = false
  /\ (forall c, c ∈ Constraints p -> MatchConstraintWithAtLeastOneTag tagMatches c [] = false)
  /\ (forall pre c post,
        Constraints p = pre ++ c :: post ->
        Forall (fun d => MustMatch d = false) pre ->
        MustMatch c = true ->
        MatchConstraints tagMatches p [] = (false, Some c)
        /\ snd (MatchConstraintsLogged tagMatches p []) = pre ++ [c])
  /\ MatchConstraints tagMatches p [] =
       match List.find MustMatch (Constraints p) with
       | Some c => (false, Some c)
       | None => (true, None)
       end
  /\ (MatchConstraints tagMatches p [] = (true, None)
      <-> Forall (fun d => MustMatch d = false) (Constraints p)).
Proof.
  intros Hne.
  assert (Hguard : filteringDisabled p [] = false).
  { destruct (filteringDisabled p []) eqn:E; [|reflexivity].
    apply filteringDisabled_true in E as [_ E]. contradiction. }
  assert (Hfind : MatchConstraints tagMatches p [] =
       match List.find MustMatch (Constraints p) with
       | Some c => (false, Some c)
       | None => (true, None)
       end).
  { unfold MatchConstraints. rewrite Hguard. clear.
    induction (Constraints p) as [|d cs IH]; simpl; [reflexivity|].
    destruct (MustMatch d); simpl; [reflexivity|exact IH]. }
  split; [exact Hguard|]. split; [reflexivity|]. split; [|split; [exact Hfind|]].
  - intros pre c post Hcs Hpre Hc.
    rewrite <- MatchConstraintsLogged_fst.
    rewrite (MatchConstraintsLogged_stops p [] pre post c Hcs).
    + split; reflexivity.
    + eapply Forall_impl; [exact Hpre|]. intros d Hd. now apply satisfied_no_tags.
    + rewrite satisfied_no_tags. congruence.
  - rewrite Hfind. clear. induction (Constraints p) as [|d cs IH]; simpl.
    + split; [constructor|reflexivity].
    + destruct (MustMatch d) eqn:E.
      * split; [discriminate|]. intros H. inversion H; congruence.
      * rewrite IH. split; [now constructor|]. intros H. now inversion H.
Qed.

End ConstraintMatcherFacts.

(** ** ReverseStringSlice *)

Lemma reverseLoop_eq (l : list gostring) (i j : Z) :
  reverseLoop l i j =
  if decide (i < j)
  then match swap l i j with
       | Some l' => reverseLoop l' (i + 1) (j - 1)
       | None => None
       end
  else Some l.
Proof.
  simp reverseLoop. destruct (decide (i < j)); simpl; [|reflexivity].
  destruct (swap l i j); reflexivity.
Qed.

Lemma elemAt_middle {A : Type} (pre post : list A) (x : A) (i : Z) :
  i = Z.of_nat (length pre) -> elemAt (pre ++ x :: post) i = Some x.
Proof.
  intros ->. unfold elemAt.
  destruct (Z.ltb_spec (Z.of_nat (length pre)) 0) as [E|E]; [lia|].
  rewrite Nat2Z.id. apply list_lookup_middle. reflexivity.
Qed.

(** Swapping the two ends of a middle segment. *)
Lemma swap_ends {A : Type} (pre mid post : list A) (x y : A) (i j : Z) :
  i = Z.of_nat (length pre) ->
  j = Z.of_nat (length pre + length mid + 1) ->
  swap (pre ++ x :: mid ++ y :: post) i j = Some (pre ++ y :: mid ++ x :: post).
Proof.
  intros Hi Hj. unfold swap.
  rewrite (elemAt_middle pre (mid ++ y :: post) x i Hi). simpl.
  replace (pre ++ x :: mid ++ y :: post) with ((pre ++ x :: mid) ++ y :: post)
    by (rewrite <- app_assoc; reflexivity).
  rewrite (elemAt_middle (pre ++ x :: mid) post y j)
    by (rewrite Hj, length_app; simpl; lia).
  simpl. f_equal. subst i j. rewrite !Nat2Z.id.
  rewrite <- app_assoc. simpl.
  replace (length pre) with (length pre + 0)%nat at 2 by lia.
  rewrite insert_app_r. simpl.
  replace (length pre + length mid + 1)%nat with (length pre + S (length mid + 0))%nat by lia.
  rewrite insert_app_r. simpl. rewrite insert_app_r. reflexivity.
Qed.

(** The loop started at the two ends of a segment reverses that segment. *)
Lemma reverseLoop_middle (n : nat) : forall (pre mid post : list gostring),
  length mid = n ->
  reverseLoop (pre ++ mid ++ post) (Z.of_nat (length pre))
    (Z.of_nat (length pre) + Z.of_nat (length mid) - 1)
  = Some (pre ++ reverse mid ++ post).
Proof.
  induction n as [n IH] using lt_wf_ind. intros pre mid post Hn.
  rewrite reverseLoop_eq.
  destruct mid as [|x mid]; [simpl; case_decide; [lia|reflexivity]|].
  destruct mid as [|y mid' _] using rev_ind.
  - simpl. case_decide; [lia|reflexivity].
  - case_decide; [|simpl in *; rewrite ?length_app in *; simpl in *; lia].
    change ((x :: mid' ++ [y]) ++ post) with (x :: (mid' ++ [y]) ++ post).
    rewrite <- (app_assoc mid' [y] post). simpl.
    rewrite (swap_ends pre mid' post x y)
      by (try reflexivity; simpl; rewrite length_app; simpl; lia).
    replace (pre ++ y :: mid' ++ x :: post) with ((pre ++ [y]) ++ mid' ++ (x :: post))
      by (rewrite <- app_assoc; reflexivity).
    replace (Z.of_nat (length pre) + 1) with (Z.of_nat (length (pre ++ [y])))
      by (rewrite length_app; simpl; lia).
    match goal with
    | |- reverseLoop _ _ ?j = _ =>
        replace j with (Z.of_nat (length (pre ++ [y])) + Z.of_nat (length mid') - 1)
          by (simpl; rewrite !length_app; simpl; lia)
    end.
    rewrite (IH (length mid')) by (try reflexivity; subst n; simpl; rewrite length_app; simpl; lia).
    f_equal. rewrite reverse_cons, reverse_app. simpl.
    rewrite <- !app_assoc. reflexivity.
Qed.

(** [ReverseStringSlice] does not panic and leaves the reversed sequence. *)
Lemma ReverseStringSlice_reverse (l : list gostring) :
  ReverseStringSlice l = Some (reverse l).
Proof.
  unfold ReverseStringSlice.
  pose proof (reverseLoop_middle (length l) [] l [] eq_refl) as H.
  simpl in H. rewrite !app_nil_r in H. exact H.
Qed.


(** C8. [ReverseStringSlice] is an involution on sequences of any length:
    it never indexes out of range, keeps the length, a second application
    restores the original contents, element [i] of the result is element
    [len-1-i] of the original, the middle element of an odd-length sequence
    stays where it is, and sequences of length 0 or 1 are left as they
    are. *)
Theorem ReverseStringSlice_involution (l : list gostring) :
  (exists l' : list gostring,
      ReverseStringSlice l = Some l'
      /\ length l' = length l
      /\ ReverseStringSlice l' = Some l
      /\ (forall i : nat, (i < length l)%nat -> l' !! i = l !! (length l - 1 - i)%nat)
      /\ (Nat.odd (length l) = true ->
          l' !! (length l / 2)%nat = l !! (length l / 2)%nat))
  /\ ((length l <= 1)%nat -> ReverseStringSlice l = Some l).
Proof.
  split.
  - exists (reverse l). split; [apply ReverseStringSlice_reverse|].
    split; [apply length_reverse|].
    split; [rewrite ReverseStringSlice_reverse, reverse_involutive; reflexivity|].
    assert (Hlookup : forall i : nat, (i < length l)%nat ->
                                      reverse l !! i = l !! (length l - 1 - i)%nat).
    { intros i Hi. rewrite reverse_lookup by exact Hi. f_equal. lia. }
    split; [exact Hlookup|].
    intros Hodd. pose proof (Nat.div_mod_eq (length l) 2) as Hdiv.
    assert (Hmod : (length l mod 2 = 1)%nat).
    { rewrite <- Nat.bit0_mod, Nat.bit0_odd, Hodd. reflexivity. }
    rewrite Hlookup by lia. f_equal. lia.
  - intros Hlen. rewrite ReverseStringSlice_reverse.
    destruct l as [|x [|y l]]; [reflexivity|reflexivity|simpl in Hlen; lia].
Qed.

Lemma ReverseStringSlice_involution_witness :
  (exists l' : list gostring,
      ReverseStringSlice [lit "a"; lit "b"; lit "c"] = Some l'
      /\ l' !! 0%nat = Some (lit "c")
      /\ l' !! 1%nat = Some (lit "b"))
  /\ ReverseStringSlice [lit "a"] = Some [lit "a"].
Proof.
  split.
  - destruct (ReverseStringSlice_involution [lit "a"; lit "b"; lit "c"])
      as [(l' & H & _ & _ & Hi & Hmid) _].
    exists l'. split; [exact H|]. split.
    + rewrite (Hi 0%nat) by (simpl; lia). reflexivity.
    + apply Hmid. reflexivity.
  - apply (proj2 (ReverseStringSlice_involution [lit "a"])). simpl. lia.
Defined.

(** ** split *)

Lemma slice_0 (s : gostring) (n : nat) : slice s 0 (Z.of_nat n) = take n s.
Proof. unfold slice. rewrite Z.sub_0_r, Nat2Z.id. reflexivity. Qed.

Lemma HasPrefix_true (s prefix : gostring) :
  HasPrefix s prefix = true <-> exists rest, s = prefix ++ rest.
Proof.
  unfold HasPrefix. rewrite andb_true_iff, Z.leb_le, bool_decide_eq_true, slice_0.
  split.
  - intros [_ H]. exists (drop (length prefix) s).
    rewrite <- H at 1. symmetry. apply take_drop.
  - intros [rest ->]. split; [rewrite length_app; lia|].
    rewrite take_app_length. reflexivity.
Qed.

Lemma HasPrefix_nil (s : gostring) : HasPrefix s [] = true.
Proof. apply HasPrefix_true. exists s. reflexivity. Qed.

Lemma HasPrefix_take (s prefix : gostring) (k : nat) :
  HasPrefix (take k s) prefix = true -> HasPrefix s prefix = true.
Proof.
  rewrite !HasPrefix_true. intros [rest H]. exists (rest ++ drop k s).
  rewrite app_assoc, <- H. symmetry. apply take_drop.
Qed.

Lemma Index_cons (b : ascii) (t substr : gostring) :
  Index (b :: t) substr =
  if HasPrefix (b :: t) substr then 0
  else if Index t substr <? 0 then -1 else Index t substr + 1.
Proof. reflexivity. Qed.

Lemma Index_nil (substr : gostring) :
  Index [] substr = if HasPrefix [] substr then 0 else -1.
Proof. reflexivity. Qed.

Lemma Index_ge (s substr : gostring) : -1 <= Index s substr.
Proof.
  induction s as [|b t IH].
  - rewrite Index_nil. destruct (HasPrefix [] substr); lia.
  - rewrite Index_cons. destruct (HasPrefix (b :: t) substr); [lia|].
    destruct (Z.ltb_spec (Index t substr) 0); lia.
Qed.

Lemma Index_empty_separator (s : gostring) : Index s [] = 0.
Proof.
  destruct s; [rewrite Index_nil|rewrite Index_cons]; rewrite HasPrefix_nil; reflexivity.
Qed.

Lemma Index_of_nil (c : ascii) (cs : gostring) : Index [] (c :: cs) = -1.
Proof. reflexivity. Qed.

(** An offset returned by [Index] is the place of an instance. *)
Lemma Index_found (s substr : gostring) (m : Z) :
  Index s substr = m -> 0 <= m ->
  s = take (Z.to_nat m) s ++ substr ++ drop (Z.to_nat (m + Z.of_nat (length substr))) s.
Proof.
  revert m. induction s as [|b t IH]; intros m.
  - rewrite Index_nil. destruct (HasPrefix [] substr) eqn:E; [|lia].
    intros <- _. apply HasPrefix_true in E as [rest E].
    destruct substr; [reflexivity|discriminate].
  - rewrite Index_cons. destruct (HasPrefix (b :: t) substr) eqn:E.
    + intros <- _. apply HasPrefix_true in E as [rest E]. rewrite E at 1.
      rewrite Z.add_0_l, Nat2Z.id. change (Z.to_nat 0) with 0%nat.
      rewrite take_0, E, drop_app_length. reflexivity.
    + destruct (Z.ltb_spec (Index t substr) 0) as [Hlt|Hge]; [lia|].
      intros <- _. specialize (IH (Index t substr) eq_refl Hge).
      replace (Z.to_nat (Index t substr + 1)) with (S (Z.to_nat (Index t substr))) by lia.
      replace (Z.to_nat (Index t substr + 1 + Z.of_nat (length substr)))
        with (S (Z.to_nat (Index t substr + Z.of_nat (length substr)))) by lia.
      simpl. f_equal. exact IH.
Qed.

(** Nothing before the first instance contains the separator. *)
Lemma Index_before (s : gostring) (c : ascii) (cs : gostring) (m : Z) :
  Index s (c :: cs) = m -> 0 <= m ->
  Index (take (Z.to_nat m) s) (c :: cs) = -1.
Proof.
  revert m. induction s as [|b t IH]; intros m.
  - rewrite Index_of_nil. lia.
  - rewrite Index_cons. destruct (HasPrefix (b :: t) (c :: cs)) eqn:E.
    + intros <- _. reflexivity.
    + destruct (Z.ltb_spec (Index t (c :: cs)) 0) as [Hlt|Hge]; [lia|].
      intros <- _. specialize (IH (Index t (c :: cs)) eq_refl Hge).
      replace (Z.to_nat (Index t (c :: cs) + 1)) with (S (Z.to_nat (Index t (c :: cs)))) by lia.
      rewrite firstn_cons, Index_cons, IH.
      destruct (HasPrefix (b :: take _ t) (c :: cs)) eqn:E'; [|reflexivity].
      apply (HasPrefix_take (b :: t) (c :: cs) (S (Z.to_nat (Index t (c :: cs))))) in E'.
      congruence.
Qed.

Lemma countLoop_eq (c : ascii) (cs s : gostring) (n : Z) :
  countLoop c cs s n =
  if decide (Index s (c :: cs) = -1) then n
  else countLoop c cs (drop (Z.to_nat (Index s (c :: cs) + Z.of_nat (length (c :: cs)))) s) (n + 1).
Proof.
  rewrite countLoop_equation_1.
  destruct (decide (Index s (c :: cs) = -1)); reflexivity.
Qed.

Lemma drop_after_instance_shorter (s : gostring) (c : ascii) (cs : gostring) :
  Index s (c :: cs) <> -1 ->
  (length (drop (Z.to_nat (Index s (c :: cs) + Z.of_nat (length (c :: cs)))) s) < length s)%nat.
Proof.
  intros Hne. pose proof (Index_ge s (c :: cs)).
  destruct s as [|b t]; [contradiction|].
  rewrite length_drop. simpl length in *. lia.
Qed.

(** The counter of the counting loop only grows. *)
Lemma countLoop_ge (c : ascii) (cs : gostring) (k : nat) :
  forall (s : gostring) (n : Z), (length s < k)%nat -> n <= countLoop c cs s n.
Proof.
  induction k as [|k IH]; intros s n Hk; [lia|].
  rewrite countLoop_eq. case_decide as Hi; [lia|].
  pose proof (drop_after_instance_shorter s c cs Hi).
  etransitivity; [|apply IH; lia]. lia.
Qed.

Lemma countLoop_shift (c : ascii) (cs : gostring) (k : nat) :
  forall (s : gostring) (n : Z), (length s < k)%nat ->
  countLoop c cs s n = n + countLoop c cs s 0.
Proof.
  induction k as [|k IH]; intros s n Hk; [lia|].
  rewrite (countLoop_eq c cs s n), (countLoop_eq c cs s 0).
  case_decide as Hi; [lia|].
  pose proof (drop_after_instance_shorter s c cs Hi).
  rewrite (IH _ (n + 1)) by lia. rewrite (IH _ (0 + 1)) by lia. lia.
Qed.

(** [Count] unfolds along the first instance. *)
Lemma Count_step (s : gostring) (c : ascii) (cs : gostring) :
  Count s (c :: cs) =
  if decide (Index s (c :: cs) = -1) then 0
  else 1 + Count (drop (Z.to_nat (Index s (c :: cs) + Z.of_nat (length (c :: cs)))) s) (c :: cs).
Proof.
  unfold Count. rewrite countLoop_eq. case_decide; [reflexivity|].
  apply (countLoop_shift c cs (S (length s))). rewrite length_drop. lia.
Qed.

Lemma Count_nonneg (s : gostring) (c : ascii) (cs : gostring) : 0 <= Count s (c :: cs).
Proof. unfold Count. apply (countLoop_ge c cs (S (length s))). lia. Qed.

Lemma joinWith_cons (sep frag : gostring) (frags : list gostring) :
  frags <> [] -> joinWith sep (frag :: frags) = frag ++ sep ++ joinWith sep frags.
Proof. destruct frags; [contradiction|reflexivity]. Qed.

(** The loop of [genSplit], run [Count(s, sep)] times, cuts [s] at each
    instance of [sep]. *)
Lemma splitLoop_literal (c : ascii) (cs : gostring) (k : nat) :
  forall (s : gostring) (a : list gostring), (length s < k)%nat ->
  exists (pieces : list gostring) (rest : gostring),
    splitLoop (Z.to_nat (Count s (c :: cs))) s (c :: cs) 0 a = (a ++ pieces, rest)
    /\ literalSplit (c :: cs) s (pieces ++ [rest]).
Proof.
  induction k as [|k IH]; intros s a Hk; [lia|].
  rewrite Count_step. case_decide as Hi.
  - exists [], s. simpl. rewrite app_nil_r. repeat split. constructor; [exact Hi|constructor].
  - pose proof (Index_ge s (c :: cs)) as Hge.
    pose proof (drop_after_instance_shorter s c cs Hi) as Hshort.
    set (m := Index s (c :: cs)) in *.
    set (s' := drop (Z.to_nat (m + Z.of_nat (length (c :: cs)))) s) in *.
    pose proof (Count_nonneg s' c cs) as Hcnt.
    replace (Z.to_nat (1 + Count s' (c :: cs))) with (S (Z.to_nat (Count s' (c :: cs)))) by lia.
    cbn [splitLoop]. fold m. destruct (Z.ltb_spec m 0) as [Hlt|_]; [lia|]. fold s'.
    destruct (IH s' (a ++ [slice s 0 (m + 0)]) ltac:(lia)) as (pieces & rest & Hloop & Hjoin & Hall).
    exists (slice s 0 (m + 0) :: pieces), rest. split.
    + rewrite Hloop, <- app_assoc. reflexivity.
    + replace (slice s 0 (m + 0)) with (take (Z.to_nat m) s)
        by (unfold slice; rewrite drop_0; f_equal; lia).
      split.
      * change ((take (Z.to_nat m) s :: pieces) ++ [rest])
          with (take (Z.to_nat m) s :: (pieces ++ [rest])).
        rewrite joinWith_cons by (destruct pieces; discriminate).
        rewrite Hjoin. symmetry. apply Index_found; [reflexivity|lia].
      * constructor; [|exact Hall]. apply Index_before; [reflexivity|lia].
Qed.

(** [split] with a non-empty separator is the loop run [Count] times. *)
Lemma split_nonempty_separator (c : ascii) (cs s : gostring) :
  split (c :: cs) s =
  let '(a, rest) := splitLoop (Z.to_nat (Count s (c :: cs))) s (c :: cs) 0 [] in
  a ++ [rest].
Proof.
  unfold split, Split, genSplit.
  change (-1 =? 0) with false. change (-1 <? 0) with true. cbv iota zeta.
  rewrite bool_decide_eq_false_2 by discriminate.
  replace (Count s (c :: cs) + 1 - 1) with (Count s (c :: cs)) by lia.
  reflexivity.
Qed.

Lemma split_literal (sep s : gostring) :
  sep <> [] -> literalSplit sep s (split sep s).
Proof.
  intros Hsep. destruct sep as [|c cs]; [contradiction|].
  rewrite split_nonempty_separator.
  destruct (splitLoop_literal c cs (S (length s)) s [] ltac:(lia)) as (pieces & rest & -> & H).
  exact H.
Qed.

Lemma split_not_found (sep s : gostring) :
  Index s sep = -1 -> split sep s = [s].
Proof.
  intros Hi. destruct sep as [|c cs]; [rewrite Index_empty_separator in Hi; lia|].
  rewrite split_nonempty_separator, Count_step, decide_True by exact Hi.
  reflexivity.
Qed.

Lemma split_both_empty : split [] [] = [].
Proof. reflexivity. Qed.

(** C9, as amended.  For a non-empty separator, [split] is a literal
    substring split: the pieces joined with the separator give back [s] and
    no piece contains the separator.  If [sep] does not occur in [s] the
    result is the single element [s]; if [s] is empty and [sep] is not, the
    result is the single empty string, whereas with both empty it is the
    empty sequence; and [split(",", "a,b,c")] is ["a"; "b"; "c"]. *)
Theorem split_literal_substring (sep s : gostring) :
  (sep <> [] -> literalSplit sep s (split sep s))
  /\ (Index s sep = -1 -> split sep s = [s])
  /\ (sep <> [] -> s = [] -> split sep s = [[]])
  /\ split [] [] = []
  /\ split (lit ",") (lit "a,b,c") = [lit "a"; lit "b"; lit "c"].
Proof.
  split; [apply split_literal|]. split; [apply split_not_found|].
  split; [|split; [reflexivity|vm_compute; reflexivity]].
  intros Hsep ->. apply split_not_found.
  destruct sep; [contradiction|reflexivity].
Qed.

Lemma split_literal_substring_witness :
  literalSplit (lit ",") (lit "a,,b") (split (lit ",") (lit "a,,b"))
  /\ split (lit ",") (lit "abc") = [lit "abc"]
  /\ split (lit ",") (lit "") = [lit ""].
Proof.
  destruct (split_literal_substring (lit ",") (lit "a,,b")) as (H1 & _).
  destruct (split_literal_substring (lit ",") (lit "abc")) as (_ & H2 & _).
  destruct (split_literal_substring (lit ",") (lit "")) as (_ & _ & H3 & _).
  split; [apply H1; discriminate|].
  split; [apply H2; reflexivity|apply H3; [discriminate|reflexivity]].
Defined.

(** C9 as stated fails: for the empty separator and the empty string the
    result is not a single empty-string element. *)
Lemma split_empty_string_counterexample :
  split (lit "") (lit "") = [] /\ split (lit "") (lit "") <> [lit ""].
Proof. split; [reflexivity|discriminate]. Qed.

(** ** Decoding *)

Lemma first_cases (b : Z) :
  first b = as_ \/ first b = xx \/ first b = s1 \/ first b = s2 \/ first b = s3
  \/ first b = s4 \/ first b = s5 \/ first b = s6 \/ first b = s7.
Proof.
  unfold first.
  repeat match goal with
  | |- context [if ?c then _ else _] => destruct c
  end; tauto.
Qed.

(** A decoding is either the one-byte error, or it has a width [k] within
    the string and is determined by the first [k] bytes, those after the
    first being continuation bytes. *)
Lemma decodeBytes_cases (n b0 b1 b2 b3 r k : Z) :
  1 <= n ->
  decodeBytes n b0 b1 b2 b3 = (r, k) ->
  (r = RuneError /\ k = 1)
  \/ (1 <= k <= 4 /\ k <= n
      /\ (2 <= k -> 0x80 <= b1) /\ (3 <= k -> 0x80 <= b2) /\ (4 <= k -> 0x80 <= b3)
      /\ forall n' b1' b2' b3',
           k <= n' -> (2 <= k -> b1' = b1) -> (3 <= k -> b2' = b2) -> (4 <= k -> b3' = b3) ->
           decodeBytes n' b0 b1' b2' b3' = (r, k)).
Proof.
  intros Hn. unfold decodeBytes.
  destruct (first_cases b0) as [E|[E|[E|[E|[E|[E|[E|[E|E]]]]]]]]; rewrite E; clear E.
  all: cbv zeta;
    repeat match goal with
    | |- context [as_ <=? ?x] =>
        let v := eval vm_compute in (as_ <=? x) in progress change (as_ <=? x) with v
    | |- context [Z.land ?x 7] =>
        let v := eval vm_compute in (Z.land x 7) in progress change (Z.land x 7) with v
    | |- context [acceptRanges ?i] =>
        let v := eval vm_compute in (acceptRanges i) in progress change (acceptRanges i) with v
    | |- context [?a <=? ?b] =>
        let v := eval vm_compute in (a <=? b) in
        match v with true => idtac | false => idtac end;
        progress change (a <=? b) with v
    end; cbv iota; cbn [fst snd]; unfold locb, hicb.
  1, 2: intros [= <- <-]; right; repeat split; try lia; intros; reflexivity.
  all: intros H;
    repeat match type of H with
    | context [if ?c then _ else _] => destruct c eqn:?
    end;
    injection H as <- <-; try (left; split; reflexivity); right;
    repeat match goal with
    | E : (_ <? _) = false |- _ => apply Z.ltb_ge in E
    | E : _ || _ = false |- _ => apply orb_false_elim in E as [? ?]
    end;
    (split; [lia|]); (split; [lia|]); (split; [lia|]); (split; [lia|]); (split; [lia|]);
    intros n' b1' b2' b3' Hn' Hb1 Hb2 Hb3;
    try (rewrite Hb1 by lia); try (rewrite Hb2 by lia); try (rewrite Hb3 by lia);
    repeat match goal with
    | |- context [?a <? ?b] =>
        rewrite (proj2 (Z.ltb_ge a b)) by lia
    end; cbn [orb]; reflexivity.
Qed.

Lemma byteAt_app_l (p t : gostring) (i : nat) :
  (i < length p)%nat -> byteAt (p ++ t) i = byteAt p i.
Proof. intros Hi. unfold byteAt. rewrite lookup_app_l by exact Hi. reflexivity. Qed.

Lemma byteAt_take (s : gostring) (k i : nat) :
  (i < k)%nat -> byteAt (take k s) i = byteAt s i.
Proof. intros Hi. unfold byteAt. rewrite lookup_take_lt by exact Hi. reflexivity. Qed.

Lemma DecodeRuneInString_nonempty (s : gostring) :
  s <> [] ->
  DecodeRuneInString s =
  decodeBytes (Z.of_nat (length s)) (byteAt s 0) (byteAt s 1) (byteAt s 2) (byteAt s 3).
Proof.
  intros Hne. unfold DecodeRuneInString. cbv zeta.
  destruct (Z.ltb_spec (Z.of_nat (length s)) 1) as [Hlt|_]; [|reflexivity].
  destruct s; [contradiction|simpl in Hlt; lia].
Qed.

(** The width of a decoded rune lies within the string. *)
Lemma decode_width (s : gostring) (r k : Z) :
  s <> [] -> DecodeRuneInString s = (r, k) -> 1 <= k <= 4 /\ k <= Z.of_nat (length s).
Proof.
  intros Hne H. rewrite DecodeRuneInString_nonempty in H by exact Hne.
  assert (Hlen : 1 <= Z.of_nat (length s)) by (destruct s; [contradiction|simpl; lia]).
  destruct (decodeBytes_cases _ _ _ _ _ _ _ Hlen H) as [[-> ->]|(? & ? & _)]; lia.
Qed.

(** What is decoded within [p] does not depend on what follows [p], as long
    as that does not start with a continuation byte. *)
Lemma decode_context (p t1 t2 : gostring) (r k : Z) :
  p <> [] ->
  DecodeRuneInString (p ++ t1) = (r, k) ->
  k <= Z.of_nat (length p) ->
  asciiHead t2 ->
  DecodeRuneInString (p ++ t2) = (r, k).
Proof.
  intros Hne H1 Hk Hascii.
  assert (Hlen : 1 <= Z.of_nat (length p)) by (destruct p; [contradiction|simpl; lia]).
  assert (Hne1 : p ++ t1 <> []) by (destruct p; [contradiction|discriminate]).
  assert (Hne2 : p ++ t2 <> []) by (destruct p; [contradiction|discriminate]).
  rewrite DecodeRuneInString_nonempty in H1 by exact Hne1.
  rewrite DecodeRuneInString_nonempty by exact Hne2.
  destruct (decodeBytes (Z.of_nat (length (p ++ t2))) (byteAt (p ++ t2) 0)
              (byteAt (p ++ t2) 1) (byteAt (p ++ t2) 2) (byteAt (p ++ t2) 3))
    as [r' k'] eqn:H2.
  assert (H0 : byteAt (p ++ t2) 0 = byteAt (p ++ t1) 0)
    by (rewrite !byteAt_app_l by lia; reflexivity).
  rewrite H0 in H2.
  assert (Hagree : forall j : nat, (j < length p)%nat -> byteAt (p ++ t2) j = byteAt (p ++ t1) j)
    by (intros j Hj; rewrite !byteAt_app_l by exact Hj; reflexivity).
  assert (Hl1 : 1 <= Z.of_nat (length (p ++ t1))) by (rewrite length_app; lia).
  assert (Hl2 : 1 <= Z.of_nat (length (p ++ t2))) by (rewrite length_app; lia).
  destruct (decodeBytes_cases _ _ _ _ _ _ _ Hl1 H1) as [[-> ->]|(Hk1 & Hn1 & _ & _ & _ & Huniv1)].
  - destruct (decodeBytes_cases _ _ _ _ _ _ _ Hl2 H2)
      as [[-> ->]|(Hk2 & Hn2 & Hc1 & Hc2 & Hc3 & Huniv2)]; [reflexivity|].
    destruct (Z.le_gt_cases k' (Z.of_nat (length p))) as [Hin|Hout].
    + rewrite <- H1. symmetry.
      apply Huniv2; [rewrite length_app; lia|..]; intros; symmetry; apply Hagree; lia.
    + exfalso. rewrite length_app in Hn2.
      destruct t2 as [|c t2]; [simpl in Hn2; lia|]. simpl in Hascii.
      destruct p as [|c0 [|c1 [|c2 [|c3 p]]]]; simpl in Hout, Hlen; try lia.
      * specialize (Hc1 ltac:(lia)). unfold byteAt in Hc1. simpl in Hc1. lia.
      * specialize (Hc2 ltac:(lia)). unfold byteAt in Hc2. simpl in Hc2. lia.
      * specialize (Hc3 ltac:(lia)). unfold byteAt in Hc3. simpl in Hc3. lia.
  - rewrite <- H2. apply Huniv1; [rewrite length_app; lia|..]; intros; apply Hagree; lia.
Qed.

(** One iteration of a [range] loop over a non-empty string. *)
Lemma chars_unfold (s : gostring) (r k : Z) :
  s <> [] -> DecodeRuneInString s = (r, k) ->
  chars s = (r, take (Z.to_nat k) s) :: chars (drop (Z.to_nat k) s).
Proof.
  intros Hne H. pose proof (decode_width s r k Hne H) as [Hk Hlen].
  destruct s as [|c0 t0]; [contradiction|].
  cbn [chars]. rewrite H.
  assert (Hcases : k = 1 \/ k = 2 \/ k = 3 \/ k = 4) by lia.
  destruct Hcases as [-> | [-> | [-> | ->]]].
  - destruct t0; reflexivity.
  - destruct t0 as [|c1 t1]; [simpl in Hlen; lia|]. reflexivity.
  - destruct t0 as [|c1 [|c2 t2]]; try (simpl in Hlen; lia). reflexivity.
  - destruct t0 as [|c1 [|c2 [|c3 t3]]]; try (simpl in Hlen; lia). reflexivity.
Qed.

Lemma rangeFrom_unfold (s : gostring) (i r k : Z) :
  s <> [] -> DecodeRuneInString s = (r, k) ->
  rangeFrom i s = (i, r) :: rangeFrom (i + k) (drop (Z.to_nat k) s).
Proof.
  intros Hne H. pose proof (decode_width s r k Hne H) as [Hk Hlen].
  destruct s as [|c0 t0]; [contradiction|].
  cbn [rangeFrom]. rewrite H.
  assert (Hcases : k = 1 \/ k = 2 \/ k = 3 \/ k = 4) by lia.
  destruct Hcases as [-> | [-> | [-> | ->]]].
  - destruct t0; reflexivity.
  - destruct t0 as [|c1 t1]; [simpl in Hlen; lia|]. reflexivity.
  - destruct t0 as [|c1 [|c2 t2]]; try (simpl in Hlen; lia). reflexivity.
  - destruct t0 as [|c1 [|c2 [|c3 t3]]]; try (simpl in Hlen; lia). reflexivity.
Qed.

(** Induction along the characters of a string. *)
Lemma chars_ind (P : gostring -> Prop) :
  P [] ->
  (forall s r k, s <> [] -> DecodeRuneInString s = (r, k) ->
                 1 <= k <= 4 -> k <= Z.of_nat (length s) ->
                 P (drop (Z.to_nat k) s) -> P s) ->
  forall s, P s.
Proof.
  intros Hnil Hstep s.
  induction s as [s IH] using (induction_ltof1 _ (@length ascii)). unfold ltof in IH.
  destruct s as [|c0 t0]; [exact Hnil|].
  destruct (DecodeRuneInString (c0 :: t0)) as [r k] eqn:H.
  destruct (decode_width (c0 :: t0) r k ltac:(discriminate) H) as [Hk Hlen].
  apply (Hstep (c0 :: t0) r k ltac:(discriminate) H Hk Hlen).
  apply IH. rewrite length_drop. simpl length in *. lia.
Qed.

Lemma chars_bytes_nonempty (s : gostring) : Forall (fun c => snd c <> []) (chars s).
Proof.
  induction s as [|s r k Hne H Hk Hlen IH] using chars_ind; [constructor|].
  rewrite (chars_unfold s r k Hne H). constructor; [|exact IH].
  simpl. destruct s; [contradiction|].
  replace (Z.to_nat k) with (S (Z.to_nat (k - 1))) by lia. discriminate.
Qed.

(** ** FieldsFunc *)

Lemma slice_from (s : gostring) (lo : Z) :
  0 <= lo -> slice s lo (Z.of_nat (length s)) = drop (Z.to_nat lo) s.
Proof.
  intros Hlo. unfold slice. apply take_ge. rewrite length_drop. lia.
Qed.

Lemma slice_prefix (done s : gostring) (lo : Z) :
  0 <= lo <= Z.of_nat (length done) ->
  slice (done ++ s) lo (Z.of_nat (length done)) = drop (Z.to_nat lo) done.
Proof.
  intros Hlo. unfold slice. rewrite drop_app_le by lia.
  rewrite take_app_le by (rewrite length_drop; lia).
  apply take_ge. rewrite length_drop. lia.
Qed.

(** The loop of [FieldsFunc], started in the middle of the string, yields
    the fields of the remaining characters. *)
Lemma fields_loop (S : gostring) (f : Z -> bool) (s : gostring) :
  forall (done : gostring) (a : list gostring) (fieldStart : Z) (cur : option gostring),
  S = done ++ s ->
  (fieldStart = -1 /\ cur = None)
  \/ (0 <= fieldStart <= Z.of_nat (length done)
      /\ cur = Some (drop (Z.to_nat fieldStart) done)) ->
  (let '(a', fieldStart') :=
     fold_left (fieldsStep S f) (rangeFrom (Z.of_nat (length done)) s) (a, fieldStart) in
   if 0 <=? fieldStart'
   then a' ++ [slice S fieldStart' (Z.of_nat (length S))]
   else a')
  = a ++ fieldsFrom f cur (chars s).
Proof.
  induction s as [|s r k Hne H Hk Hlen IH] using chars_ind; intros done a fs cur HS Hst.
  - rewrite app_nil_r in HS. subst S. simpl.
    destruct Hst as [[-> ->]|[Hfs ->]].
    + simpl. rewrite app_nil_r. reflexivity.
    + destruct (Z.leb_spec 0 fs); [|lia]. rewrite slice_from by lia. reflexivity.
  - rewrite (rangeFrom_unfold s _ r k Hne H), (chars_unfold s r k Hne H).
    set (bs := take (Z.to_nat k) s) in *. set (s' := drop (Z.to_nat k) s) in *.
    assert (Hs : s = bs ++ s') by (symmetry; apply take_drop).
    assert (Hbs : length bs = Z.to_nat k) by (unfold bs; rewrite length_take; lia).
    assert (HS' : S = (done ++ bs) ++ s') by (rewrite <- app_assoc, <- Hs; exact HS).
    assert (Hi : Z.of_nat (length done) + k = Z.of_nat (length (done ++ bs)))
      by (rewrite length_app; lia).
    cbn [fold_left fieldsStep fieldsFrom]. rewrite Hi.
    destruct (f r) eqn:Hf.
    + destruct Hst as [[-> ->]|[Hfs ->]].
      * change (0 <=? -1) with false. cbv iota.
        rewrite (IH (done ++ bs) a (-1) None HS') by (left; split; reflexivity).
        reflexivity.
      * destruct (Z.leb_spec 0 fs); [|lia].
        rewrite (IH (done ++ bs) _ (-1) None HS') by (left; split; reflexivity).
        rewrite HS, slice_prefix by lia. rewrite <- app_assoc. reflexivity.
    + destruct Hst as [[-> ->]|[Hfs ->]].
      * change (-1 =? -1) with true. cbv iota.
        rewrite (IH (done ++ bs) a (Z.of_nat (length done)) (Some bs) HS'); [reflexivity|].
        right. split; [rewrite length_app; lia|].
        rewrite Nat2Z.id, drop_app_length. reflexivity.
      * destruct (Z.eqb_spec fs (-1)); [lia|].
        rewrite (IH (done ++ bs) a fs (Some (drop (Z.to_nat fs) done ++ bs)) HS');
          [reflexivity|].
        right. split; [rewrite length_app; lia|].
        rewrite drop_app_le by lia. reflexivity.
Qed.

Lemma FieldsFunc_fieldsFrom (s : gostring) (f : Z -> bool) :
  FieldsFunc s f = fieldsFrom f None (chars s).
Proof.
  unfold FieldsFunc, rangeString.
  apply (fields_loop s f s [] [] (-1) None); [reflexivity|left; split; reflexivity].
Qed.

(** The fields are the non-empty fragments between separators. *)
Lemma fieldsFrom_fragments (sep : Z -> bool) (cs : list (Z * gostring)) :
  Forall (fun c => snd c <> []) cs ->
  fieldsFrom sep None cs = discardEmpty (splitAtSeparators sep cs)
  /\ forall f, f <> [] ->
       fieldsFrom sep (Some f) cs =
       match splitAtSeparators sep cs with
       | frag :: frags => (f ++ frag) :: discardEmpty frags
       | [] => [f]
       end.
Proof.
  unfold discardEmpty.
  induction 1 as [|[r bs] cs Hbs _ [IHnone IHsome]]; [|simpl in Hbs].
  - split; [reflexivity|]. intros f _. simpl. rewrite app_nil_r. reflexivity.
  - cbn [fieldsFrom splitAtSeparators]. destruct (sep r).
    + split.
      * rewrite filter_cons_False by (intros Hc; apply Hc; reflexivity). exact IHnone.
      * intros f _. rewrite app_nil_r, IHnone. reflexivity.
    + split.
      * rewrite (IHsome bs Hbs). destruct (splitAtSeparators sep cs) as [|frag frags].
        -- rewrite filter_cons_True by exact Hbs. reflexivity.
        -- rewrite filter_cons_True by (destruct bs; [contradiction|discriminate]).
           reflexivity.
      * intros f Hf. rewrite (IHsome (f ++ bs)) by (destruct f; [contradiction|discriminate]).
        destruct (splitAtSeparators sep cs) as [|frag frags].
        -- reflexivity.
        -- rewrite <- app_assoc. reflexivity.
Qed.

(** ** Join *)

Lemma joinWith_prepend (sep p x : gostring) (rest : list gostring) :
  joinWith sep ((p ++ x) :: rest) = p ++ joinWith sep (x :: rest).
Proof. destruct rest; simpl; [reflexivity|rewrite <- app_assoc; reflexivity]. Qed.

Lemma Join_joinWith (a : list gostring) (sep : gostring) : Join a sep = joinWith sep a.
Proof.
  destruct a as [|a0 rest]; [reflexivity|]. unfold Join.
  revert a0. induction rest as [|x rest IH]; intros a0; [reflexivity|].
  cbn [fold_left]. rewrite IH, !joinWith_prepend. reflexivity.
Qed.

(** ** Normalize *)

Lemma Normalize_fields (tables : RangeTables) (s : gostring) :
  Normalize tables s = joinWith (lit "-") (fieldsFrom (fargs tables) None (chars s)).
Proof. unfold Normalize. rewrite Join_joinWith, FieldsFunc_fieldsFrom. reflexivity. Qed.

(** C5, as amended.  [Normalize(s)] is [s] split on the runs of characters
    that are neither a Unicode letter nor a Unicode number (category N,
    which has the decimal digits and also numerals such as U+00BD), the
    empty fragments discarded and the others joined with "-"; and the five
    examples of the spec hold. *)
Theorem Normalize_spec (tables : RangeTables) :
  (forall s : gostring,
      Normalize tables s = normalizeSpec (neitherLetterNorNumber tables) s)
  /\ Normalize tables (lit "foo.bar") = lit "foo-bar"
  /\ Normalize tables (lit "a..b") = lit "a-b"
  /\ Normalize tables (lit "a.b c-d") = lit "a-b-c-d"
  /\ Normalize tables (lit "  ") = lit ""
  /\ Normalize tables (lit "") = lit "".
Proof.
  split; [|repeat split; vm_compute; reflexivity].
  intros s. rewrite Normalize_fields. unfold normalizeSpec.
  destruct (fieldsFrom_fragments (fargs tables) (chars s) (chars_bytes_nonempty s)) as [-> _].
  reflexivity.
Qed.

(** C5 as stated fails on "a", U+00BD, "b": the fraction is a number but
    not a digit, so [Normalize] keeps it where splitting on non-digits
    gives "a-b". *)
Lemma Normalize_digit_counterexample :
  let s := [byte 0x61; byte 0xC2; byte 0xBD; byte 0x62] in
  Normalize latin1Only s = s
  /\ normalizeSpec (neitherLetterNorDigit latin1Only) s = lit "a-b"
  /\ Normalize latin1Only s <> normalizeSpec (neitherLetterNorDigit latin1Only) s.
Proof.
  cbv zeta. split; [vm_compute; reflexivity|]. split; [vm_compute; reflexivity|].
  vm_compute. discriminate.
Qed.

(** ** Idempotence of Normalize *)

Lemma decode_ascii (c : ascii) (t : gostring) :
  byteval c < 0x80 -> DecodeRuneInString (c :: t) = (byteval c, 1).
Proof.
  intros Hc. rewrite DecodeRuneInString_nonempty by discriminate.
  unfold decodeBytes, byteAt. cbn [lookup list_lookup]. cbv zeta.
  unfold first. destruct (Z.ltb_spec (byteval c) 0x80) as [_|Hge]; [|lia].
  change (as_ <=? as_) with true. cbv iota.
  change (Z.shiftr (int32 (Z.shiftl as_ 31)) 31) with 0.
  change (Z.lnot 0) with (-1).
  rewrite Z.land_m1_r, Z.land_0_r, Z.lor_0_r. reflexivity.
Qed.

Lemma chars_ascii (c : ascii) (t : gostring) :
  byteval c < 0x80 -> chars (c :: t) = (byteval c, [c]) :: chars t.
Proof.
  intros Hc. rewrite (chars_unfold (c :: t) (byteval c) 1 ltac:(discriminate) (decode_ascii c t Hc)).
  reflexivity.
Qed.

(** What a prefix of the string is read as does not depend on what follows
    it, as long as that does not start with a continuation byte. *)
Lemma chars_context (cs : list (Z * gostring)) :
  forall (w t1 t2 : gostring),
  concat (map snd cs) = w ->
  chars (w ++ t1) = cs ++ chars t1 ->
  asciiHead t2 ->
  chars (w ++ t2) = cs ++ chars t2.
Proof.
  induction cs as [|[r bs] cs IH]; intros w t1 t2 Hw H1 Hascii.
  - simpl in Hw. subst w. reflexivity.
  - cbn [map concat snd] in Hw.
    destruct w as [|c0 w0] eqn:Ew.
    { exfalso. apply (f_equal length) in H1. simpl in H1.
      rewrite length_app in H1. lia. }
    rewrite <- Ew in *. assert (Hne : w <> []) by (rewrite Ew; discriminate). clear Ew c0 w0.
    assert (Hne1 : w ++ t1 <> []) by (destruct w; [contradiction|discriminate]).
    assert (Hne2 : w ++ t2 <> []) by (destruct w; [contradiction|discriminate]).
    destruct (DecodeRuneInString (w ++ t1)) as [r1 k] eqn:Hd.
    pose proof (decode_width _ _ _ Hne1 Hd) as [Hk Hlen].
    rewrite (chars_unfold _ _ _ Hne1 Hd) in H1. injection H1 as -> Hbs Hrest.
    assert (Hkbs : Z.to_nat k = length bs) by (rewrite <- Hbs, length_take; lia).
    subst w.
    rewrite <- app_assoc, Hkbs, drop_app_length in Hrest.
    assert (Hd2 : DecodeRuneInString ((bs ++ concat (map snd cs)) ++ t2) = (r, k)).
    { apply (decode_context _ t1 t2 r k Hne Hd); [rewrite length_app; lia|exact Hascii]. }
    rewrite (chars_unfold _ _ _ Hne2 Hd2), Hkbs, <- app_assoc, take_app_length, drop_app_length.
    cbn [app]. f_equal. apply (IH _ t1 t2 eq_refl Hrest Hascii).
Qed.

Section Fields.

Variable sep : Z -> bool.

(** Every field is a word. *)
Lemma fieldsFrom_words (s : gostring) :
  Forall (word sep) (fieldsFrom sep None (chars s))
  /\ forall (w : gostring) (cs : list (Z * gostring)),
       cs <> [] -> concat (map snd cs) = w ->
       Forall (fun c => sep (fst c) = false) cs ->
       chars (w ++ s) = cs ++ chars s ->
       Forall (word sep) (fieldsFrom sep (Some w) (chars s)).
Proof.
  assert (Hword : forall (w t1 : gostring) (cs : list (Z * gostring)),
             cs <> [] -> concat (map snd cs) = w ->
             Forall (fun c => sep (fst c) = false) cs ->
             chars (w ++ t1) = cs ++ chars t1 -> word sep w).
  { intros w t1 cs Hcs Hw Hsep H. exists cs. repeat split; try assumption.
    intros t Ht. apply (chars_context cs w t1 t Hw H Ht). }
  induction s as [|s r k Hne H Hk Hlen [IHnone IHsome]] using chars_ind.
  - split; [constructor|]. intros w cs Hcs Hw Hsep Hc. simpl.
    constructor; [|constructor]. exact (Hword w [] cs Hcs Hw Hsep Hc).
  - rewrite (chars_unfold s r k Hne H).
    set (bs := take (Z.to_nat k) s) in *. set (s' := drop (Z.to_nat k) s) in *.
    assert (Hs : s = bs ++ s') by (symmetry; apply take_drop).
    cbn [fieldsFrom]. destruct (sep r) eqn:Hr.
    + split; [exact IHnone|]. intros w cs Hcs Hw Hsep Hc.
      constructor; [|exact IHnone]. apply (Hword w s cs Hcs Hw Hsep).
      rewrite (chars_unfold s r k Hne H). exact Hc.
    + split.
      * apply (IHsome bs [(r, bs)]); [discriminate|apply app_nil_r|repeat constructor; exact Hr|].
        rewrite <- Hs. apply (chars_unfold s r k Hne H).
      * intros w cs Hcs Hw Hsep Hc.
        apply (IHsome (w ++ bs) (cs ++ [(r, bs)])).
        -- destruct cs; discriminate.
        -- rewrite map_app, concat_app, Hw. simpl. rewrite app_nil_r. reflexivity.
        -- apply Forall_app. split; [exact Hsep|repeat constructor; exact Hr].
        -- rewrite <- !app_assoc, <- Hs, Hc. reflexivity.
Qed.

Lemma fieldsFrom_nonseparators (cs rest : list (Z * gostring)) :
  Forall (fun c => sep (fst c) = false) cs ->
  forall f : gostring,
    fieldsFrom sep (Some f) (cs ++ rest) = fieldsFrom sep (Some (f ++ concat (map snd cs))) rest.
Proof.
  induction 1 as [|[r bs] cs Hr _ IH]; intros f; simpl in *.
  - rewrite app_nil_r. reflexivity.
  - rewrite Hr, IH, <- app_assoc. reflexivity.
Qed.

Lemma fieldsFrom_word (w : gostring) (cs rest : list (Z * gostring)) :
  cs <> [] -> concat (map snd cs) = w ->
  Forall (fun c => sep (fst c) = false) cs ->
  fieldsFrom sep None (cs ++ rest) = fieldsFrom sep (Some w) rest.
Proof.
  intros Hcs Hw Hsep. destruct cs as [|[r bs] cs]; [contradiction|].
  inversion Hsep as [|? ? Hr Hsep']; subst. simpl in Hr |- *.
  rewrite Hr. apply fieldsFrom_nonseparators. exact Hsep'.
Qed.

(** Words joined with "-" are read back as these words. *)
Lemma fields_of_words (F : list gostring) :
  sep 0x2D = true ->
  Forall (word sep) F ->
  fieldsFrom sep None (chars (joinWith (lit "-") F)) = F.
Proof.
  intros Hdash. induction 1 as [|w F (cs & Hcs & Hw & Hsep & Hreads) HF IH]; [reflexivity|].
  unfold readsAs in Hreads.
  destruct F as [|w' F].
  - cbn [joinWith]. rewrite <- (app_nil_r w) at 1.
    pose proof (Hreads [] I) as Hend. rewrite Hend.
    cbn [chars]. rewrite (fieldsFrom_word w cs [] Hcs Hw Hsep). reflexivity.
  - rewrite joinWith_cons by discriminate.
    change (lit "-" ++ joinWith (lit "-") (w' :: F))
      with ("-"%char :: joinWith (lit "-") (w' :: F)).
    assert (Hascii : asciiHead ("-"%char :: joinWith (lit "-") (w' :: F)))
      by (vm_compute; reflexivity).
    pose proof (Hreads _ Hascii) as Hdashed. rewrite Hdashed.
    rewrite chars_ascii by (vm_compute; reflexivity).
    rewrite (fieldsFrom_word w cs _ Hcs Hw Hsep).
    cbn [fieldsFrom]. change (byteval "-") with 0x2D. rewrite Hdash, IH. reflexivity.
Qed.

End Fields.

(** C7. [Normalize] is idempotent. *)
Theorem Normalize_idempotent (tables : RangeTables) (s : gostring) :
  Normalize tables (Normalize tables s) = Normalize tables s.
Proof.
  rewrite (Normalize_fields tables (Normalize tables s)), (Normalize_fields tables s).
  rewrite fields_of_words; [reflexivity|vm_compute; reflexivity|].
  apply fieldsFrom_words.
Qed.

(** ** Template source *)

Lemma HasSuffix_true (s suffix : gostring) :
  HasSuffix s suffix = true <-> endsWith s suffix.
Proof.
  unfold HasSuffix, endsWith. rewrite andb_true_iff, Z.leb_le, bool_decide_eq_true.
  split.
  - intros [_ H]. exists (take (length s - length suffix) s).
    rewrite <- H at 2. symmetry. apply take_drop.
  - intros [stem ->]. rewrite length_app. split; [lia|].
    replace (length stem + length suffix - length suffix)%nat with (length stem) by lia.
    apply drop_app_length.
Qed.

Lemma HasSuffix_false (s suffix : gostring) :
  HasSuffix s suffix = false <-> ~ endsWith s suffix.
Proof.
  rewrite <- HasSuffix_true. destruct (HasSuffix s suffix); split; congruence.
Qed.

Lemma Filename_guard (p : BaseProvider) :
  (0 <? Z.of_nat (length (Filename p))) = negb (bool_decide (Filename p = [])).
Proof.
  destruct (Filename p); [reflexivity|].
  rewrite bool_decide_eq_false_2 by discriminate. reflexivity.
Qed.

(** ** The function map *)

Section SynthesizerFacts.

Context {Error Tree Configuration Objects F : Type}.

Variable ioutil_ReadFile : gostring -> gostring * option Error.
Variable gentemplates_Asset : gostring -> gostring * option Error.
Variable sprig_TxtFuncMap : gmap gostring (Callable F).
Variable tables : RangeTables.
Variable template_goodFunc : F -> bool.
Variable template_Parse : Template F -> gostring -> Tree * option Error.
Variable template_Execute : Template F -> Tree -> Objects -> gostring * option Error.
Variable toml_Decode : gostring -> Configuration -> Configuration * option Error.
Variable new_Configuration : Configuration.

Local Abbreviation getTemplateContent' :=
  (getTemplateContent (F:=F) ioutil_ReadFile gentemplates_Asset).
Local Abbreviation GetConfiguration' :=
  (GetConfiguration ioutil_ReadFile gentemplates_Asset sprig_TxtFuncMap tables
     template_goodFunc template_Parse template_Execute toml_Decode new_Configuration).
Local Abbreviation installable' := (installable tables template_goodFunc).

(** The loop over the caller's map puts its entries over what is there. *)
Lemma merge_fold (funcMap base : gmap gostring (Callable F)) :
  map_fold (fun funcID funcElement m => <[funcID := funcElement]> m) base funcMap
  = funcMap ∪ base.
Proof using Type.
  apply (map_fold_weak_ind (fun r m => r = m ∪ base)).
  - rewrite (left_id_L ∅ (∪)). reflexivity.
  - intros i x m r _ ->. rewrite insert_union_l. reflexivity.
Qed.

Lemma defaultFuncMap_lookup (funcMap : gmap gostring (Callable F)) (name : gostring) :
  defaultFuncMap sprig_TxtFuncMap funcMap !! name =
  match funcMap !! name with
  | Some f => Some f
  | None =>
      if decide (name = lit "split") then Some provider_split
      else if decide (name = lit "normalize") then Some provider_Normalize
      else if decide (name = lit "tolower") then Some strings_ToLower
      else sprig_TxtFuncMap !! name
  end.
Proof using Type.
  unfold defaultFuncMap. cbv zeta. rewrite merge_fold.
  destruct (funcMap !! name) as [f|] eqn:E.
  - apply lookup_union_Some_l. exact E.
  - rewrite lookup_union_r by exact E.
    repeat (case_decide;
            [subst name; rewrite ?lookup_insert_ne by discriminate; apply lookup_insert_eq
            |rewrite lookup_insert_ne by congruence]).
    reflexivity.
Qed.

Lemma getTemplateContent_from_file (p : BaseProvider) (defaultTemplateFile : gostring) :
  Filename p <> [] ->
  run (getTemplateContent' p defaultTemplateFile) =
  (match ioutil_ReadFile (Filename p) with
   | (_, Some e) => ([], Some e)
   | (buf, None) => (buf, None)
   end, [EvReadFile (Filename p)]).
Proof using Type.
  intros Hf. unfold run, getTemplateContent.
  rewrite Filename_guard, bool_decide_eq_false_2 by exact Hf. cbn [negb].
  unfold mbind, Run_bind, call, mret, Run_ret.
  destruct (ioutil_ReadFile (Filename p)) as [buf [e|]]; reflexivity.
Qed.

(** C3. The template source is resolved in a fixed order.  With a non-empty
    [Filename] the file is read and nothing else is consulted: its contents
    are the result, or the read error.  Otherwise, if the default template
    name ends with ".tmpl", the asset of that name is loaded: its text is
    the result, or the error of the store.  Otherwise the name itself is
    the text, and nothing is read. *)
Theorem getTemplateContent_precedence (p : BaseProvider) (defaultTemplateFile : gostring) :
  (Filename p <> [] ->
   run (getTemplateContent' p defaultTemplateFile) =
   (match ioutil_ReadFile (Filename p) with
    | (_, Some e) => ([], Some e)
    | (buf, None) => (buf, None)
    end, [EvReadFile (Filename p)]))
  /\ (Filename p = [] -> endsWith defaultTemplateFile (lit ".tmpl") ->
      run (getTemplateContent' p defaultTemplateFile) =
      (match gentemplates_Asset defaultTemplateFile with
       | (_, Some e) => ([], Some e)
       | (buf, None) => (buf, None)
       end, [EvAsset defaultTemplateFile]))
  /\ (Filename p = [] -> ~ endsWith defaultTemplateFile (lit ".tmpl") ->
      run (getTemplateContent' p defaultTemplateFile) = ((defaultTemplateFile, None), [])).
Proof using Type.
  split; [apply getTemplateContent_from_file|].
  unfold run, getTemplateContent. rewrite Filename_guard.
  split.
  - intros Hf Hs. rewrite bool_decide_eq_true_2 by exact Hf. cbn [negb].
    apply HasSuffix_true in Hs. rewrite Hs.
    unfold mbind, Run_bind, call, mret, Run_ret.
    destruct (gentemplates_Asset defaultTemplateFile) as [buf [e|]]; reflexivity.
  - intros Hf Hs. rewrite bool_decide_eq_true_2 by exact Hf. cbn [negb].
    apply HasSuffix_false in Hs. rewrite Hs. reflexivity.
Qed.

(** The trace of [getTemplateContent] continues the trace it is given. *)
Lemma getTemplateContent_trace (p : BaseProvider) (defaultTemplateFile : gostring)
  (tr : list (Event F)) :
  getTemplateContent' p defaultTemplateFile tr =
  (fst (run (getTemplateContent' p defaultTemplateFile)),
   tr ++ snd (run (getTemplateContent' p defaultTemplateFile))).
Proof using Type.
  unfold run, getTemplateContent.
  destruct (0 <? Z.of_nat (length (Filename p))).
  - unfold mbind, Run_bind, call, mret, Run_ret.
    destruct (ioutil_ReadFile (Filename p)) as [buf [e|]]; reflexivity.
  - destruct (HasSuffix defaultTemplateFile (lit ".tmpl")).
    + unfold mbind, Run_bind, call, mret, Run_ret.
      destruct (gentemplates_Asset defaultTemplateFile) as [buf [e|]]; reflexivity.
    + unfold mret, Run_ret. rewrite app_nil_r. reflexivity.
Qed.

(** ** Building and installing the function map *)

(** The address [newMap] picks is not in use. *)
Lemma newMap_fresh (store : Store F) : store !! fresh (dom store) = None.
Proof using Type.
  apply not_elem_of_dom. apply is_fresh.
Qed.

Lemma entriesOf_insert (store : Store F) (m : positive)
  (contents : gmap gostring (Callable F)) :
  entriesOf (<[m := contents]> store) m = contents.
Proof using Type.
  unfold entriesOf. rewrite lookup_insert_eq. reflexivity.
Qed.

(** Lines 57 to 64 leave a new object that holds [defaultFuncMap] of the
    entries of the caller's map, and nothing else is changed. *)
Lemma buildFuncMap_spec (funcMap : positive) (store : Store F) :
  buildFuncMap sprig_TxtFuncMap funcMap store =
  (fresh (dom store),
   <[fresh (dom store) := defaultFuncMap sprig_TxtFuncMap (entriesOf store funcMap)]> store).
Proof using Type.
  unfold buildFuncMap, newMap, assign. cbv zeta.
  set (m := fresh (dom store)).
  rewrite !alter_insert_eq.
  set (base := <[lit "split" := provider_split]> _).
  assert (Hloop : forall entries : gmap gostring (Callable F),
             map_fold (fun funcID funcElement st => alter (<[funcID := funcElement]>) m st)
               (<[m := base]> store) entries
             = <[m := entries ∪ base]> store).
  { intros entries.
    apply (map_fold_weak_ind (fun r e => r = <[m := e ∪ base]> store)).
    - rewrite (left_id_L ∅ (∪)). reflexivity.
    - intros i x e r _ ->. rewrite alter_insert_eq, insert_union_l. reflexivity. }
  rewrite Hloop. f_equal. f_equal.
  unfold defaultFuncMap. cbv zeta. rewrite merge_fold. fold base.
  unfold entriesOf. destruct (decide (funcMap = m)) as [->|Hne].
  - rewrite lookup_insert_eq. subst m. rewrite newMap_fresh. cbn [default].
    rewrite map_empty_union. apply map_union_idemp.
  - rewrite lookup_insert_ne by congruence. reflexivity.
Qed.

(** [addValueFuncs] panics unless every entry is accepted, and then adds
    them all. *)
Lemma addValueFuncs_spec (out funcMap : gmap gostring (Callable F)) :
  addValueFuncs tables template_goodFunc out funcMap =
  if decide (installable' funcMap) then Returned (funcMap ∪ out) else Panicked.
Proof using Type.
  unfold addValueFuncs, decide.
  apply (map_fold_weak_ind
           (fun r m => r = if installable_dec tables template_goodFunc m
                           then Returned (m ∪ out) else Panicked)).
  - destruct (installable_dec tables template_goodFunc ∅) as [_|Hn].
    + rewrite map_empty_union. reflexivity.
    + destruct Hn. apply map_Forall_empty.
  - intros name fn m r Hnone ->.
    pose proof (map_Forall_insert
                  (fun name fn => goodName tables name && goodValue template_goodFunc fn = true)
                  m name fn Hnone) as Hins.
    fold (installable' (<[name := fn]> m)) in Hins. fold (installable' m) in Hins.
    destruct (installable_dec tables template_goodFunc m) as [Hm|Hm];
      destruct (installable_dec tables template_goodFunc (<[name := fn]> m)) as [Hi|Hi].
    + apply Hins in Hi as [Hi _]. apply andb_true_iff in Hi as [-> ->]. cbn [negb].
      rewrite insert_union_l. reflexivity.
    + destruct (goodName tables name) eqn:Hname; cbn [negb]; [|reflexivity].
      destruct (goodValue template_goodFunc fn) eqn:Hvalue; cbn [negb]; [|reflexivity].
      destruct Hi. apply Hins. rewrite Hname, Hvalue. split; [reflexivity|exact Hm].
    + apply Hins in Hi as [_ Hi]. destruct (Hm Hi).
    + reflexivity.
Qed.

Lemma template_Funcs_New (name : gostring) (funcMap : gmap gostring (Callable F)) :
  template_Funcs tables template_goodFunc (template_New name) funcMap =
  if decide (installable' funcMap) then Returned (mkTemplate name funcMap) else Panicked.
Proof using Type.
  unfold template_Funcs, template_New. cbn [tmplFuncs tmplName].
  rewrite addValueFuncs_spec. destruct (decide (installable' funcMap)); [|reflexivity].
  rewrite (right_id_L ∅ (∪)). reflexivity.
Qed.

(** ** GetConfiguration *)

(** [GetConfiguration], stage by stage. *)
Lemma GetConfiguration_stages (p : BaseProvider) (defaultTemplateFile : gostring)
  (funcMap : positive) (templateObjects : Objects) (store : Store F) :
  let funcs := defaultFuncMap sprig_TxtFuncMap (entriesOf store funcMap) in
  let tmpl := mkTemplate (Filename p) funcs in
  let store' := <[fresh (dom store) := funcs]> store in
  let '((tmplContent, srcErr), srcTrace) := run (getTemplateContent' p defaultTemplateFile) in
  run (GetConfiguration' p defaultTemplateFile funcMap templateObjects store) =
  if decide (installable' funcs) then
    match srcErr with
    | Some e => ((Returned (None, Some e), store'), srcTrace)
    | None =>
        match template_Parse tmpl tmplContent with
        | (_, Some e) =>
            ((Returned (None, Some e), store'), srcTrace ++ [EvParse tmpl tmplContent])
        | (tree, None) =>
            match template_Execute tmpl tree templateObjects with
            | (_, Some e) =>
                ((Returned (None, Some e), store'),
                 srcTrace ++ [EvParse tmpl tmplContent; EvExecute tmpl])
            | (rendered, None) =>
                match toml_Decode rendered new_Configuration with
                | (_, Some e) =>
                    ((Returned (None, Some e), store'),
                     srcTrace ++ [EvParse tmpl tmplContent; EvExecute tmpl]
                     ++ debugTrace p defaultTemplateFile rendered ++ [EvDecode rendered])
                | (configuration, None) =>
                    ((Returned (Some configuration, None), store'),
                     srcTrace ++ [EvParse tmpl tmplContent; EvExecute tmpl]
                     ++ debugTrace p defaultTemplateFile rendered ++ [EvDecode rendered])
                end
            end
        end
    end
  else ((Panicked, store'), []).
Proof using Type.
  cbv zeta. unfold GetConfiguration, debugTrace.
  rewrite buildFuncMap_spec. cbv iota beta.
  rewrite entriesOf_insert, template_Funcs_New.
  destruct (decide (installable' _)) as [Hok|Hbad].
  2: { destruct (run (getTemplateContent' p defaultTemplateFile))
         as [[tmplContent srcErr] srcTrace].
       reflexivity. }
  unfold run at 2. unfold mbind at 1. unfold Run_bind at 1.
  unfold mbind at 1. unfold Run_bind at 1.
  rewrite getTemplateContent_trace.
  destruct (run (getTemplateContent' p defaultTemplateFile)) as [[tmplContent [e|]] srcTrace];
    cbn [fst snd app]; [reflexivity|].
  unfold mbind, Run_bind, call, mret, Run_ret.
  destruct (template_Parse _ tmplContent) as [tree [e|]]; [reflexivity|].
  destruct (template_Execute _ tree templateObjects) as [rendered [e|]];
    [rewrite <- app_assoc; reflexivity|].
  destruct (DebugLogGeneratedTemplate p);
    destruct (toml_Decode rendered new_Configuration) as [configuration [e|]];
    rewrite <- ?app_assoc; reflexivity.
Qed.
(** C2. Whenever the template engine accepts the function map, that is
    the library defaults, "tolower", "normalize", "split" and the caller's
    functions, [GetConfiguration] either succeeds and returns the
    configuration the decoder produced, after the source, parse and execute
    stages all succeeded, or it returns no configuration and the error of
    the one stage that failed; and when a non-empty [Filename] cannot be
    read, the read error is returned and the file read is the only call
    made: the template is neither parsed nor executed and nothing is
    decoded.  When the engine does not accept the function map, [Funcs]
    panics: the call returns nothing and makes no outside call at all. *)
Theorem GetConfiguration_all_or_nothing (p : BaseProvider) (defaultTemplateFile : gostring)
  (funcMap : positive) (templateObjects : Objects) (store : Store F) :
  let funcs := defaultFuncMap sprig_TxtFuncMap (entriesOf store funcMap) in
  let tmpl := mkTemplate (Filename p) funcs in
  let source := fst (run (getTemplateContent' p defaultTemplateFile)) in
  let result := run (GetConfiguration' p defaultTemplateFile funcMap templateObjects store) in
  let outcome := fst (fst result) in
  (installable' funcs ->
   ((exists configuration, outcome = Returned (Some configuration, None))
    \/ (exists e, outcome = Returned (None, Some e)))
   /\ (forall configuration,
         outcome = Returned (Some configuration, None) ->
         exists tmplContent tree rendered,
           source = (tmplContent, None)
           /\ template_Parse tmpl tmplContent = (tree, None)
           /\ template_Execute tmpl tree templateObjects = (rendered, None)
           /\ toml_Decode rendered new_Configuration = (configuration, None))
   /\ (forall e,
         outcome = Returned (None, Some e) ->
         snd source = Some e
         \/ (exists tmplContent tree,
               source = (tmplContent, None)
               /\ template_Parse tmpl tmplContent = (tree, Some e))
         \/ (exists tmplContent tree rendered,
               source = (tmplContent, None)
               /\ template_Parse tmpl tmplContent = (tree, None)
               /\ template_Execute tmpl tree templateObjects = (rendered, Some e))
         \/ (exists tmplContent tree rendered partial,
               source = (tmplContent, None)
               /\ template_Parse tmpl tmplContent = (tree, None)
               /\ template_Execute tmpl tree templateObjects = (rendered, None)
               /\ toml_Decode rendered new_Configuration = (partial, Some e)))
   /\ (forall buf e,
         Filename p <> [] ->
         ioutil_ReadFile (Filename p) = (buf, Some e) ->
         outcome = Returned (None, Some e) /\ snd result = [EvReadFile (Filename p)]))
  /\ (~ installable' funcs -> outcome = Panicked /\ snd result = []).
Proof using Type.
  cbv zeta.
  pose proof (GetConfiguration_stages p defaultTemplateFile funcMap templateObjects store)
    as Hst.
  cbv zeta in Hst.
  pose proof (getTemplateContent_from_file p defaultTemplateFile) as Hfile.
  destruct (run (getTemplateContent' p defaultTemplateFile))
    as [[tmplContent srcErr] srcTrace] eqn:Hsrc.
  rewrite Hst. clear Hst. cbn [fst snd].
  destruct (decide (installable' _)) as [Hok|Hbad].
  2: { split; [intros Hok; destruct (Hbad Hok)|]. intros _. split; reflexivity. }
  split; [intros _|intros Hbad; destruct (Hbad Hok)].
  destruct srcErr as [e0|].
  { cbn [fst snd]. split; [right; eauto|]. split; [intros c [=]|].
    split; [intros e [= ->]; left; reflexivity|].
    intros buf e Hf Hread. specialize (Hfile Hf). rewrite Hread in Hfile.
    injection Hfile as _ <- <-. split; reflexivity. }
  assert (Hnoread : forall buf e, Filename p <> [] ->
                                  ioutil_ReadFile (Filename p) = (buf, Some e) -> False).
  { intros buf e Hf Hread. specialize (Hfile Hf). rewrite Hread in Hfile. discriminate. }
  destruct (template_Parse _ tmplContent) as [tree [e1|]] eqn:Hparse.
  { cbn [fst snd]. split; [right; eauto|]. split; [intros c [=]|].
    split; [intros e [= ->]; right; left; eauto|].
    intros buf e Hf Hread. destruct (Hnoread buf e Hf Hread). }
  destruct (template_Execute _ tree templateObjects) as [rendered [e2|]] eqn:Hexec.
  { cbn [fst snd]. split; [right; eauto|]. split; [intros c [=]|].
    split; [intros e [= ->]; right; right; left; eauto 6|].
    intros buf e Hf Hread. destruct (Hnoread buf e Hf Hread). }
  destruct (toml_Decode rendered new_Configuration) as [configuration [e3|]] eqn:Hdec.
  { cbn [fst snd]. split; [right; eauto|]. split; [intros c [=]|].
    split; [intros e [= ->]; right; right; right; eauto 8|].
    intros buf e Hf Hread. destruct (Hnoread buf e Hf Hread). }
  cbn [fst snd]. split; [left; eauto|].
  split; [intros c [= <-]; eauto 8|].
  split; [intros e [=]|].
  intros buf e Hf Hread. destruct (Hnoread buf e Hf Hread).
Qed.

Lemma source_events (p : BaseProvider) (defaultTemplateFile : gostring) (ev : Event F) :
  ev ∈ snd (run (getTemplateContent' p defaultTemplateFile)) -> templateOf ev = None.
Proof using Type.
  unfold run, getTemplateContent.
  destruct (0 <? Z.of_nat (length (Filename p))).
  - unfold mbind, Run_bind, call, mret, Run_ret.
    destruct (ioutil_ReadFile (Filename p)) as [buf [e|]]; cbn [snd app];
      intros Hin; apply list_elem_of_singleton in Hin; subst ev; reflexivity.
  - destruct (HasSuffix defaultTemplateFile (lit ".tmpl")).
    + unfold mbind, Run_bind, call, mret, Run_ret.
      destruct (gentemplates_Asset defaultTemplateFile) as [buf [e|]]; cbn [snd app];
        intros Hin; apply list_elem_of_singleton in Hin; subst ev; reflexivity.
    + intros Hin. inversion Hin.
Qed.

(** C4. The function map of [GetConfiguration] is a new object: its
    address was not in use, and every map that existed before, the caller's
    among them, is left as it was.  It is built from the library defaults,
    over which "tolower", "normalize" and "split" are installed, over which
    every function of the caller is installed: a name is bound to the
    caller's function if the caller has one, else to the package's own
    function if it is one of the three names, else to the library's.  So a
    caller's "normalize" replaces the built-in one.  And this map is the
    one [GetConfiguration] uses: the store it leaves is the one with the
    new map, every call of the template engine is made on the template
    that carries exactly these functions, the template is parsed whenever
    the engine accepts the map and the template source is found, and it is
    executed whenever the parse succeeds. *)
Theorem defaultFuncMap_precedence (funcMap : positive) (store : Store F) :
  let callerFuncs := entriesOf store funcMap in
  let built := buildFuncMap sprig_TxtFuncMap funcMap store in
  let namespace := entriesOf (snd built) (fst built) in
  (store !! fst built = None
   /\ snd built !! fst built = Some namespace
   /\ (forall m, m <> fst built -> snd built !! m = store !! m)
   /\ (is_Some (store !! funcMap) ->
       funcMap <> fst built /\ entriesOf (snd built) funcMap = callerFuncs))
  /\ (forall name : gostring,
        namespace !! name =
        match callerFuncs !! name with
        | Some f => Some f
        | None =>
            if decide (name = lit "split") then Some provider_split
            else if decide (name = lit "normalize") then Some provider_Normalize
            else if decide (name = lit "tolower") then Some strings_ToLower
            else sprig_TxtFuncMap !! name
        end)
  /\ (forall f, callerFuncs !! lit "normalize" = Some f ->
                namespace !! lit "normalize" = Some f)
  /\ (forall p defaultTemplateFile templateObjects,
        let result :=
          run (GetConfiguration' p defaultTemplateFile funcMap templateObjects store) in
        let tmpl := mkTemplate (Filename p) namespace in
        snd (fst result) = snd built
        /\ (forall ev tmpl', ev ∈ snd result -> templateOf ev = Some tmpl' -> tmpl' = tmpl)
        /\ (installable' namespace ->
            forall tmplContent,
              fst (run (getTemplateContent' p defaultTemplateFile)) = (tmplContent, None) ->
              EvParse tmpl tmplContent ∈ snd result
              /\ (forall tree,
                    template_Parse tmpl tmplContent = (tree, None) ->
                    EvExecute tmpl ∈ snd result))).
Proof using Type.
  cbv zeta. rewrite buildFuncMap_spec. cbn [fst snd]. rewrite entriesOf_insert.
  pose proof (newMap_fresh store) as Hfresh.
  split; [|split; [apply defaultFuncMap_lookup|split]].
  - split; [exact Hfresh|]. split; [apply lookup_insert_eq|].
    split; [intros m Hm; apply lookup_insert_ne; congruence|].
    intros [contents Hsome].
    assert (Hne : funcMap <> fresh (dom store)) by (intros ->; congruence).
    split; [exact Hne|]. unfold entriesOf. rewrite lookup_insert_ne by congruence.
    reflexivity.
  - intros f Hf. rewrite defaultFuncMap_lookup, Hf. reflexivity.
  - intros p defaultTemplateFile templateObjects.
    pose proof (GetConfiguration_stages p defaultTemplateFile funcMap templateObjects store)
      as Hst.
    cbv zeta in Hst.
    pose proof (source_events p defaultTemplateFile) as Hsrc.
    destruct (run (getTemplateContent' p defaultTemplateFile))
      as [[tmplContent srcErr] srcTrace].
    rewrite Hst. clear Hst. cbn [fst snd] in Hsrc |- *. unfold debugTrace.
    destruct (decide (installable' _)) as [Hok|Hbad].
    2: { cbn [fst snd]. split; [reflexivity|]. split; [intros ev tmpl' Hin; inversion Hin|].
         intros Hok. destruct (Hbad Hok). }
    destruct srcErr as [e0|];
      [|destruct (template_Parse _ tmplContent) as [tree [e1|]] eqn:Hparse;
        [|destruct (template_Execute _ tree templateObjects) as [rendered [e2|]];
          [|destruct (toml_Decode rendered new_Configuration) as [configuration [e3|]];
            destruct (DebugLogGeneratedTemplate p)]]];
      cbn [fst snd]; (split; [reflexivity|]); split.
    all: try (intros ev tmpl' Hin Ht;
              repeat (apply elem_of_app in Hin as [Hin|Hin]);
              try (rewrite (Hsrc ev Hin) in Ht; discriminate);
              repeat (apply elem_of_cons in Hin as [->|Hin]);
              try (inversion Hin; fail); try discriminate;
              injection Ht as <-; reflexivity).
    all: intros _ content [= <-]; try discriminate.
    all: split; [apply elem_of_app; right; apply elem_of_cons; left; reflexivity|].
    all: intros tree' Htree; rewrite Hparse in Htree; try discriminate.
    all: apply elem_of_app; right; apply elem_of_cons; right; apply elem_of_cons; left;
      reflexivity.
Qed.

End SynthesizerFacts.

(** C2 as stated fails on a caller's function map with the name
    "bad-name", which is no identifier: [Funcs] panics before the template
    source is looked up, so the call neither succeeds nor returns an
    error, and the unreadable file of the provider is not even read. *)
Lemma GetConfiguration_bad_name_counterexample :
  let result :=
    run (GetConfiguration noFile anyAsset ∅ latin1Only anyFunc parseVerbatim executeVerbatim
           decodeVerbatim [] overridingProvider (lit "docker.tmpl") 1%positive tt badStore) in
  entriesOf badStore 1%positive !! lit "bad-name" = Some (Foreign tt)
  /\ goodName latin1Only (lit "bad-name") = false
  /\ noFile (Filename overridingProvider) = ([], Some (lit "no such file"))
  /\ fst (fst result) = Panicked
  /\ snd result = []
  /\ ~ ((exists configuration, fst (fst result) = Returned (Some configuration, None))
        \/ (exists e, fst (fst result) = Returned (None, Some e)))
  /\ fst (fst result) <> Returned (None, Some (lit "no such file")).
Proof.
  cbv zeta.
  assert (Hpanic : fst (fst (run (GetConfiguration noFile anyAsset ∅ latin1Only anyFunc
                                    parseVerbatim executeVerbatim decodeVerbatim []
                                    overridingProvider (lit "docker.tmpl") 1%positive tt
                                    badStore))) = Panicked)
    by (vm_compute; reflexivity).
  split; [vm_compute; reflexivity|]. split; [vm_compute; reflexivity|].
  split; [reflexivity|]. split; [exact Hpanic|]. split; [vm_compute; reflexivity|].
  rewrite Hpanic. split; [|discriminate].
  intros [[configuration H]|[e H]]; discriminate.
Qed.

(** ** The properties on the example inputs *)

Lemma MatchConstraints_first_unsatisfied_witness :
  MatchConstraints exactMatch constrainedProvider [lit "a"; lit "c"] = (false, Some mustB)
  /\ snd (MatchConstraintsLogged exactMatch constrainedProvider [lit "a"; lit "c"])
     = [mustA; mustB].
Proof.
  apply (proj1 (MatchConstraints_first_unsatisfied exactMatch constrainedProvider
                  [lit "a"; lit "c"]) [mustA] mustB [mustNotC]).
  - reflexivity.
  - constructor; [|constructor]. apply mismatch_false_iff. vm_compute. reflexivity.
  - apply mismatch_true_iff. vm_compute. reflexivity.
Defined.

Lemma MatchConstraints_never_fails_witness :
  MatchConstraints exactMatch plainProvider [] = (true, None).
Proof.
  apply (proj1 (MatchConstraints_never_fails exactMatch plainProvider [])); reflexivity.
Defined.

Lemma MatchConstraints_no_tags_witness :
  MatchConstraints exactMatch negativeProvider [] = (false, Some mustB)
  /\ snd (MatchConstraintsLogged exactMatch negativeProvider []) = [mustNotC; mustB].
Proof.
  assert (Hne : Constraints negativeProvider <> []) by (vm_compute; discriminate).
  destruct (MatchConstraints_no_tags exactMatch negativeProvider Hne) as (_ & _ & Hfirst & _).
  apply (Hfirst [mustNotC] mustB [mustA]).
  - reflexivity.
  - constructor; [reflexivity|constructor].
  - reflexivity.
Defined.

Lemma getTemplateContent_precedence_witness :
  run (getTemplateContent (F:=unit) noFile anyAsset overridingProvider (lit "docker.tmpl"))
  = (([], Some (lit "no such file")), [EvReadFile (lit "/missing/rules.tmpl")])
  /\ run (getTemplateContent (F:=unit) noFile anyAsset plainProvider (lit "docker.tmpl"))
     = ((lit "[backends]", None), [EvAsset (lit "docker.tmpl")])
  /\ run (getTemplateContent (F:=unit) noFile anyAsset plainProvider (lit "a = 1"))
     = ((lit "a = 1", None), []).
Proof.
  split; [|split].
  - apply (proj1 (getTemplateContent_precedence (F:=unit) noFile anyAsset
                    overridingProvider (lit "docker.tmpl"))).
    vm_compute. discriminate.
  - apply (proj1 (proj2 (getTemplateContent_precedence (F:=unit) noFile anyAsset
                           plainProvider (lit "docker.tmpl")))).
    + reflexivity.
    + exists (lit "docker"). reflexivity.
  - apply (proj2 (proj2 (getTemplateContent_precedence (F:=unit) noFile anyAsset
                           plainProvider (lit "a = 1")))).
    + reflexivity.
    + apply HasSuffix_false. vm_compute. reflexivity.
Defined.

Lemma GetConfiguration_all_or_nothing_witness :
  let result :=
    run (GetConfiguration noFile anyAsset ∅ latin1Only anyFunc parseVerbatim executeVerbatim
           decodeVerbatim [] overridingProvider (lit "docker.tmpl") 1%positive tt
           callerStore) in
  fst (fst result) = Returned (None, Some (lit "no such file"))
  /\ snd result = [EvReadFile (lit "/missing/rules.tmpl")].
Proof.
  destruct (GetConfiguration_all_or_nothing noFile anyAsset ∅ latin1Only anyFunc
              parseVerbatim executeVerbatim decodeVerbatim [] overridingProvider
              (lit "docker.tmpl") 1%positive tt callerStore) as [Hreturns _].
  destruct Hreturns as (_ & _ & _ & Hread).
  - apply (@bool_decide_unpack _ (installable_dec _ _ _)). vm_compute. exact I.
  - apply (Hread [] (lit "no such file")).
    + vm_compute. discriminate.
    + reflexivity.
Defined.

Lemma defaultFuncMap_precedence_witness :
  let built := buildFuncMap (∅ : gmap gostring (Callable unit)) 1%positive callerStore in
  let namespace := entriesOf (snd built) (fst built) in
  let result :=
    run (GetConfiguration noFile anyAsset ∅ latin1Only anyFunc parseVerbatim executeVerbatim
           decodeVerbatim [] quietProvider (lit "docker.tmpl") 1%positive tt callerStore) in
  namespace !! lit "normalize" = Some (Foreign tt)
  /\ callerStore !! fst built = None
  /\ entriesOf (snd built) 1%positive = callerFuncs
  /\ snd (fst result) = snd built
  /\ EvExecute (mkTemplate [] namespace) ∈ snd result.
Proof.
  cbv zeta.
  destruct (defaultFuncMap_precedence noFile anyAsset ∅ latin1Only anyFunc parseVerbatim
              executeVerbatim decodeVerbatim [] 1%positive callerStore)
    as ((Hnew & _ & _ & Hcaller) & _ & Hnormalize & Huse).
  split; [apply Hnormalize; vm_compute; reflexivity|].
  split; [exact Hnew|].
  split; [apply Hcaller; exists callerFuncs; reflexivity|].
  destruct (Huse quietProvider (lit "docker.tmpl") tt) as (Hstore & _ & Hcalls).
  split; [exact Hstore|].
  destruct (Hcalls) with (tmplContent := lit "[backends]") as [_ Hexecute].
  - apply (@bool_decide_unpack _ (installable_dec _ _ _)). vm_compute. exact I.
  - reflexivity.
  - apply (Hexecute (lit "[backends]")). reflexivity.
Defined.

(** * Further properties *)

(** ** MatchConstraints: the outcome as a conjunction *)

Section ConstraintMatcherMore.

Variable tagMatches : gostring -> gostring -> bool.

(** The boolean result is the conjunction of the tests of the loop. *)
Lemma MatchConstraints_forallb (p : BaseProvider) (tags : list gostring) :
  fst (MatchConstraints tagMatches p tags) =
  forallb (fun c => eqb (MatchConstraintWithAtLeastOneTag tagMatches c tags) (MustMatch c))
          (Constraints p).
Proof.
  unfold MatchConstraints. destruct (filteringDisabled p tags) eqn:E.
  - apply (filteringDisabled_true tagMatches) in E as [_ E]. rewrite E. reflexivity.
  - clear E. induction (Constraints p) as [|c cs IH]; [reflexivity|].
    cbn [matchEvery forallb].
    destruct (eqb (MatchConstraintWithAtLeastOneTag tagMatches c tags) (MustMatch c));
      [exact IH|reflexivity].
Qed.

Lemma test_true_iff (c : Constraint) (tags : list gostring) :
  eqb (MatchConstraintWithAtLeastOneTag tagMatches c tags) (MustMatch c) = true
  <-> satisfied tagMatches tags c.
Proof.
  rewrite <- mismatch_false_iff. destruct (eqb _ _); simpl; split; congruence.
Qed.

(** X1. The candidate is accepted exactly when every constraint of the
    set is satisfied by its tags. *)
Theorem MatchConstraints_accepts_iff (p : BaseProvider) (tags : list gostring) :
  fst (MatchConstraints tagMatches p tags) = true
  <-> Forall (satisfied tagMatches tags) (Constraints p).
Proof.
  rewrite MatchConstraints_forallb, forallb_forall, Forall_forall.
  split; intros H c Hc.
  - apply test_true_iff, H, list_elem_of_In, Hc.
  - apply test_true_iff, H, list_elem_of_In, Hc.
Qed.

(** X2. Acceptance does not depend on the order of the constraints: for
    two providers whose constraint sets are permutations of each other the
    boolean result is the same (the reported constraint may differ). *)
Theorem MatchConstraints_order_irrelevant (p p' : BaseProvider) (tags : list gostring) :
  Constraints p ≡ₚ Constraints p' ->
  fst (MatchConstraints tagMatches p tags) = fst (MatchConstraints tagMatches p' tags).
Proof.
  intros Hperm. rewrite !MatchConstraints_forallb.
  induction Hperm as [|c l l' _ IH|c d l|l l' l'' _ IH1 _ IH2]; cbn [forallb].
  - reflexivity.
  - rewrite IH. reflexivity.
  - rewrite !andb_assoc, (andb_comm (eqb _ (MustMatch d))). reflexivity.
  - rewrite IH1. exact IH2.
Qed.

(** X3. A reported constraint is sound: when the result is [(false, c)],
    [c] stands in the set after constraints that are all satisfied, and [c]
    itself is not satisfied; and a [false] result always reports one. *)
Theorem MatchConstraints_reported_constraint (p : BaseProvider) (tags : list gostring) :
  (forall c, MatchConstraints tagMatches p tags = (false, Some c) ->
             exists pre post,
               Constraints p = pre ++ c :: post
               /\ Forall (satisfied tagMatches tags) pre
               /\ ~ satisfied tagMatches tags c)
  /\ MatchConstraints tagMatches p tags <> (false, None).
Proof.
  rewrite <- MatchConstraintsLogged_fst.
  destruct (first_unsatisfied tagMatches tags (Constraints p))
    as [Hall|(pre & c & post & Hcs & Hpre & Hc)].
  - rewrite (MatchConstraintsLogged_all tagMatches p tags Hall). split; [|discriminate].
    intros c [=].
  - rewrite (MatchConstraintsLogged_stops tagMatches p tags pre post c Hcs Hpre Hc).
    split; [|discriminate]. intros d [= <-]. exists pre, post. auto.
Qed.

(** X4. Constraint sets compose by conjunction: a candidate is accepted
    under the concatenation of two sets exactly when it is accepted under
    each of them. *)
Theorem MatchConstraints_concatenation (p p1 p2 : BaseProvider) (tags : list gostring) :
  Constraints p = Constraints p1 ++ Constraints p2 ->
  fst (MatchConstraints tagMatches p tags) =
  fst (MatchConstraints tagMatches p1 tags) && fst (MatchConstraints tagMatches p2 tags).
Proof.
  intros Hcs. rewrite !MatchConstraints_forallb, Hcs. apply forallb_app.
Qed.

End ConstraintMatcherMore.

Lemma MatchConstraints_order_irrelevant_witness :
  fst (MatchConstraints exactMatch constrainedProvider [lit "a"; lit "b"])
  = fst (MatchConstraints exactMatch negativeProvider [lit "a"; lit "b"]).
Proof.
  apply MatchConstraints_order_irrelevant.
  change (Constraints constrainedProvider) with [mustA; mustB; mustNotC].
  change (Constraints negativeProvider) with [mustNotC; mustB; mustA].
  apply (Permutation_rev [mustA; mustB; mustNotC]).
Defined.

Lemma MatchConstraints_reported_constraint_witness :
  exists pre post,
    Constraints constrainedProvider = pre ++ mustB :: post
    /\ Forall (satisfied exactMatch [lit "a"; lit "c"]) pre
    /\ ~ satisfied exactMatch [lit "a"; lit "c"] mustB.
Proof.
  apply (proj1 (MatchConstraints_reported_constraint exactMatch constrainedProvider
                  [lit "a"; lit "c"])).
  vm_compute. reflexivity.
Defined.

Lemma MatchConstraints_concatenation_witness :
  fst (MatchConstraints exactMatch constrainedProvider [lit "a"; lit "b"])
  = fst (MatchConstraints exactMatch headProvider [lit "a"; lit "b"])
    && fst (MatchConstraints exactMatch tailProvider [lit "a"; lit "b"]).
Proof.
  apply MatchConstraints_concatenation. reflexivity.
Defined.

(** ** The template source and the synthesis, further *)

Section SynthesizerMore.

Context {Error Tree Configuration Objects F : Type}.

Variable ioutil_ReadFile : gostring -> gostring * option Error.
Variable gentemplates_Asset : gostring -> gostring * option Error.
Variable sprig_TxtFuncMap : gmap gostring (Callable F).
Variable tables : RangeTables.
Variable template_goodFunc : F -> bool.
Variable template_Parse : Template F -> gostring -> Tree * option Error.
Variable template_Execute : Template F -> Tree -> Objects -> gostring * option Error.
Variable toml_Decode : gostring -> Configuration -> Configuration * option Error.
Variable new_Configuration : Configuration.

Local Abbreviation getTemplateContent' :=
  (getTemplateContent (F:=F) ioutil_ReadFile gentemplates_Asset).
Local Abbreviation GetConfiguration' :=
  (GetConfiguration ioutil_ReadFile gentemplates_Asset sprig_TxtFuncMap tables
     template_goodFunc template_Parse template_Execute toml_Decode new_Configuration).
Local Abbreviation installable' := (installable tables template_goodFunc).

(** The three outcomes of [getTemplateContent]. *)
Lemma getTemplateContent_outcomes (p : BaseProvider) (defaultTemplateFile : gostring) :
  (exists buf err,
      Filename p <> []
      /\ ioutil_ReadFile (Filename p) = (buf, err)
      /\ run (getTemplateContent' p defaultTemplateFile) =
         ((match err with Some _ => [] | None => buf end, err), [EvReadFile (Filename p)]))
  \/ (exists buf err,
         Filename p = []
         /\ gentemplates_Asset defaultTemplateFile = (buf, err)
         /\ run (getTemplateContent' p defaultTemplateFile) =
            ((match err with Some _ => [] | None => buf end, err),
             [EvAsset defaultTemplateFile]))
  \/ (Filename p = []
      /\ run (getTemplateContent' p defaultTemplateFile) = ((defaultTemplateFile, None), [])).
Proof using Type.
  unfold run, getTemplateContent. rewrite Filename_guard.
  destruct (decide (Filename p = [])) as [Hf|Hf].
  - rewrite bool_decide_eq_true_2 by exact Hf. cbn [negb].
    destruct (HasSuffix defaultTemplateFile (lit ".tmpl")).
    + right. left. unfold mbind, Run_bind, call, mret, Run_ret.
      destruct (gentemplates_Asset defaultTemplateFile) as [buf [e|]];
        eexists _, _; repeat split; assumption.
    + right. right. split; [assumption|reflexivity].
  - rewrite bool_decide_eq_false_2 by exact Hf. cbn [negb].
    left. unfold mbind, Run_bind, call, mret, Run_ret.
    destruct (ioutil_ReadFile (Filename p)) as [buf [e|]];
      eexists _, _; repeat split; assumption.
Qed.

(** X5. [getTemplateContent] returns the empty text whenever it returns an
    error, and it makes at most one outside call: it never consults both the
    file system and the asset store. *)
Theorem getTemplateContent_error_and_reads (p : BaseProvider) (defaultTemplateFile : gostring) :
  let result := run (getTemplateContent' p defaultTemplateFile) in
  (snd (fst result) <> None -> fst (fst result) = [])
  /\ (length (snd result) <= 1)%nat
  /\ (EvReadFile (Filename p) ∈ snd result -> EvAsset defaultTemplateFile ∉ snd result).
Proof using Type.
  cbv zeta.
  destruct (getTemplateContent_outcomes p defaultTemplateFile)
    as [(buf & err & _ & _ & ->)|[(buf & err & _ & _ & ->)|[_ ->]]]; cbn [fst snd length].
  - split; [destruct err; [reflexivity|congruence]|]. split; [lia|].
    intros _ Hin. apply list_elem_of_singleton in Hin. discriminate.
  - split; [destruct err; [reflexivity|congruence]|]. split; [lia|].
    intros Hin. apply list_elem_of_singleton in Hin. discriminate.
  - split; [congruence|]. split; [lia|]. intros Hin. inversion Hin.
Qed.

(** X6. A non-empty [Filename] overrides the default template altogether:
    the outcome is the same for every default template name, and it is the
    same for two providers that agree on [Filename]. *)
Theorem getTemplateContent_override (p p' : BaseProvider) (d d' : gostring) :
  Filename p <> [] ->
  Filename p = Filename p' ->
  run (getTemplateContent' p d) = run (getTemplateContent' p' d').
Proof using Type.
  intros Hf Heq.
  rewrite (getTemplateContent_from_file ioutil_ReadFile gentemplates_Asset p d Hf).
  rewrite (getTemplateContent_from_file ioutil_ReadFile gentemplates_Asset p' d')
    by (rewrite <- Heq; exact Hf).
  rewrite Heq. reflexivity.
Qed.

(** Only [Filename] is read from the provider by [getTemplateContent]. *)
Lemma getTemplateContent_Filename (p p' : BaseProvider) (d : gostring) :
  Filename p = Filename p' ->
  run (getTemplateContent' p d) = run (getTemplateContent' p' d).
Proof using Type.
  intros Heq. unfold run, getTemplateContent. rewrite Heq. reflexivity.
Qed.

(** X7. The debug log is observational: two providers that agree on
    [Filename] get the same result from [GetConfiguration], whatever their
    other fields, and make the same outside calls apart from the calls of
    the logger. *)
Theorem GetConfiguration_debug_log_observational (p p' : BaseProvider)
  (defaultTemplateFile : gostring) (funcMap : positive) (templateObjects : Objects)
  (store : Store F) :
  Filename p = Filename p' ->
  fst (run (GetConfiguration' p defaultTemplateFile funcMap templateObjects store))
  = fst (run (GetConfiguration' p' defaultTemplateFile funcMap templateObjects store))
  /\ withoutDebugf
       (snd (run (GetConfiguration' p defaultTemplateFile funcMap templateObjects store)))
     = withoutDebugf
         (snd (run (GetConfiguration' p' defaultTemplateFile funcMap templateObjects store))).
Proof using Type.
  intros Heq.
  pose proof (GetConfiguration_stages ioutil_ReadFile gentemplates_Asset sprig_TxtFuncMap
                tables template_goodFunc template_Parse template_Execute toml_Decode
                new_Configuration p defaultTemplateFile funcMap templateObjects store) as H1.
  pose proof (GetConfiguration_stages ioutil_ReadFile gentemplates_Asset sprig_TxtFuncMap
                tables template_goodFunc template_Parse template_Execute toml_Decode
                new_Configuration p' defaultTemplateFile funcMap templateObjects store) as H2.
  cbv zeta in H1, H2.
  rewrite <- (getTemplateContent_Filename p p' defaultTemplateFile Heq), <- Heq in H2.
  destruct (run (getTemplateContent' p defaultTemplateFile))
    as [[tmplContent srcErr] srcTrace].
  rewrite H1, H2. clear H1 H2.
  destruct (decide (installable' _)) as [Hok|Hbad]; [|split; reflexivity].
  destruct srcErr as [e0|]; [split; reflexivity|].
  destruct (template_Parse _ tmplContent) as [tree [e1|]]; [split; reflexivity|].
  destruct (template_Execute _ tree templateObjects) as [rendered [e2|]];
    [split; reflexivity|].
  unfold withoutDebugf, debugTrace.
  destruct (toml_Decode rendered new_Configuration) as [configuration [e3|]];
    (split; [reflexivity|]); cbn [snd]; rewrite !List.filter_app;
    destruct (DebugLogGeneratedTemplate p), (DebugLogGeneratedTemplate p'); reflexivity.
Qed.

(** [getTemplateContent] calls neither the logger nor the decoder. *)
Lemma source_trace_quiet (p : BaseProvider) (defaultTemplateFile : gostring) :
  List.filter isDecode (snd (run (getTemplateContent' p defaultTemplateFile))) = []
  /\ List.filter isDebugf (snd (run (getTemplateContent' p defaultTemplateFile))) = []
  /\ forall ev, ev ∈ snd (run (getTemplateContent' p defaultTemplateFile)) ->
                isDecode ev = false /\ isDebugf ev = false.
Proof using Type.
  destruct (getTemplateContent_outcomes p defaultTemplateFile)
    as [(buf & err & _ & _ & ->)|[(buf & err & _ & _ & ->)|[_ ->]]]; cbn [snd];
    (split; [reflexivity|]); (split; [reflexivity|]); intros ev Hin.
  - apply list_elem_of_singleton in Hin. subst ev. split; reflexivity.
  - apply list_elem_of_singleton in Hin. subst ev. split; reflexivity.
  - inversion Hin.
Qed.

(** X8. The decoder is called at most once, and only on the text that the
    execution of the parsed template has produced without error: the call
    of the decoder is the last call made, it comes after the execution of
    the template, and between the two there is only the call of the logger,
    if any.  The logger is called at most once, only if
    [DebugLogGeneratedTemplate] is set, with the name of the default
    template and the very text that the next call decodes. *)
Theorem GetConfiguration_decoder_input (p : BaseProvider) (defaultTemplateFile : gostring)
  (funcMap : positive) (templateObjects : Objects) (store : Store F) :
  let tmpl :=
    mkTemplate (Filename p) (defaultFuncMap sprig_TxtFuncMap (entriesOf store funcMap)) in
  let trace :=
    snd (run (GetConfiguration' p defaultTemplateFile funcMap templateObjects store)) in
  (length (List.filter isDecode trace) <= 1)%nat
  /\ (length (List.filter isDebugf trace) <= 1)%nat
  /\ (forall rendered,
        EvDecode rendered ∈ trace ->
        exists tmplContent tree before,
          fst (run (getTemplateContent' p defaultTemplateFile)) = (tmplContent, None)
          /\ template_Parse tmpl tmplContent = (tree, None)
          /\ template_Execute tmpl tree templateObjects = (rendered, None)
          /\ trace = before ++ [EvExecute tmpl]
                     ++ debugTrace p defaultTemplateFile rendered ++ [EvDecode rendered])
  /\ (forall name rendered,
        EvDebugf name rendered ∈ trace ->
        DebugLogGeneratedTemplate p = true
        /\ name = defaultTemplateFile
        /\ exists before,
             trace = before ++ [EvDebugf defaultTemplateFile rendered; EvDecode rendered]).
Proof using Type.
  cbv zeta.
  pose proof (GetConfiguration_stages ioutil_ReadFile gentemplates_Asset sprig_TxtFuncMap
                tables template_goodFunc template_Parse template_Execute toml_Decode
                new_Configuration p defaultTemplateFile funcMap templateObjects store) as Hst.
  cbv zeta in Hst.
  destruct (source_trace_quiet p defaultTemplateFile) as (Hdec & Hlog & Hno).
  destruct (run (getTemplateContent' p defaultTemplateFile))
    as [[tmplContent srcErr] srcTrace].
  rewrite Hst. clear Hst. cbn [fst snd] in *.
  set (tmpl := mkTemplate (Filename p) _).
  destruct (decide (installable' _)) as [Hok|Hbad].
  2: { cbn [snd List.filter length]. split; [lia|]. split; [lia|].
       split; [intros r Hin|intros n r Hin]; inversion Hin. }
  assert (Hsrc : forall ev, ev ∈ srcTrace ->
                            (forall r, ev <> EvDecode r) /\ (forall n r, ev <> EvDebugf n r)).
  { intros ev Hin. destruct (Hno ev Hin) as [H1 H2].
    split; intros; intros ->; discriminate. }
  clear Hno. unfold debugTrace.
  destruct srcErr as [e0|];
    [|destruct (template_Parse _ tmplContent) as [tree [e1|]] eqn:Hparse;
      [|destruct (template_Execute _ tree templateObjects) as [rendered0 [e2|]] eqn:Hexec;
        [|destruct (toml_Decode rendered0 new_Configuration) as [configuration [e3|]];
          destruct (DebugLogGeneratedTemplate p)]]];
    cbn [snd]; rewrite ?List.filter_app, ?Hdec, ?Hlog;
    cbn [List.filter isDecode isDebugf app length];
    (split; [lia|]); (split; [lia|]); split; intros;
    repeat match goal with
    | H : _ ∈ _ ++ _ |- _ => apply elem_of_app in H as [H|H]
    | H : _ ∈ _ :: _ |- _ => apply elem_of_cons in H as [H|H]
    | H : _ ∈ [] |- _ => inversion H
    | H : ?ev ∈ srcTrace |- _ =>
        exfalso; destruct (Hsrc ev H) as [Hd Hl];
        first [exact (Hd _ eq_refl)|exact (Hl _ _ eq_refl)]
    | H : EvDecode _ = _ |- _ => first [discriminate H|inversion H; subst; clear H]
    | H : EvDebugf _ _ = _ |- _ => first [discriminate H|inversion H; subst; clear H]
    end.
  all: match goal with
       | |- exists _ _ _, _ =>
           exists tmplContent, tree, (srcTrace ++ [EvParse tmpl tmplContent]);
           split; [reflexivity|]; split; [exact Hparse|]; split; [exact Hexec|];
           rewrite <- app_assoc; reflexivity
       | |- _ =>
           split; [reflexivity|]; split; [reflexivity|];
           exists (srcTrace ++ [EvParse tmpl tmplContent; EvExecute tmpl]);
           rewrite <- app_assoc; reflexivity
       end.
Qed.

(** X9. No function is dropped from the function map: its names are those
    of the caller, the three names of the package and those of the library,
    and every entry of the caller is in it unchanged. *)
Theorem defaultFuncMap_names (funcMap : gmap gostring (Callable F)) :
  dom (defaultFuncMap sprig_TxtFuncMap funcMap)
  = dom funcMap ∪ {[lit "split"; lit "normalize"; lit "tolower"]} ∪ dom sprig_TxtFuncMap
  /\ funcMap ⊆ defaultFuncMap sprig_TxtFuncMap funcMap.
Proof using Type.
  unfold defaultFuncMap. cbv zeta. rewrite merge_fold. split.
  - rewrite dom_union_L, !dom_insert_L, !(assoc_L (∪)). reflexivity.
  - apply map_union_subseteq_l.
Qed.


End SynthesizerMore.

Lemma getTemplateContent_error_and_reads_witness :
  fst (fst (run (getTemplateContent (F:=unit) noFile anyAsset overridingProvider
                   (lit "docker.tmpl")))) = [].
Proof.
  apply (proj1 (getTemplateContent_error_and_reads (F:=unit) noFile anyAsset
                  overridingProvider (lit "docker.tmpl"))).
  vm_compute. discriminate.
Defined.

Lemma getTemplateContent_override_witness :
  run (getTemplateContent (F:=unit) noFile anyAsset overridingProvider (lit "docker.tmpl"))
  = run (getTemplateContent (F:=unit) noFile anyAsset overridingProvider (lit "a = 1")).
Proof.
  apply getTemplateContent_override; [vm_compute; discriminate|reflexivity].
Defined.

Lemma GetConfiguration_debug_log_observational_witness :
  fst (run (GetConfiguration noFile anyAsset ∅ latin1Only anyFunc parseVerbatim
              executeVerbatim decodeVerbatim [] quietProvider (lit "docker.tmpl") 1%positive
              tt callerStore))
  = fst (run (GetConfiguration noFile anyAsset ∅ latin1Only anyFunc parseVerbatim
                executeVerbatim decodeVerbatim [] verboseProvider (lit "docker.tmpl")
                1%positive tt callerStore)).
Proof.
  apply (GetConfiguration_debug_log_observational noFile anyAsset ∅ latin1Only anyFunc
           parseVerbatim executeVerbatim decodeVerbatim [] quietProvider verboseProvider).
  reflexivity.
Defined.

Lemma GetConfiguration_decoder_input_witness :
  let trace :=
    snd (run (GetConfiguration noFile anyAsset ∅ latin1Only anyFunc parseVerbatim
                executeVerbatim decodeVerbatim [] verboseProvider (lit "docker.tmpl")
                1%positive tt callerStore)) in
  DebugLogGeneratedTemplate verboseProvider = true
  /\ lit "docker.tmpl" = lit "docker.tmpl"
  /\ exists before,
       trace = before ++ [EvDebugf (lit "docker.tmpl") (lit "[backends]");
                          EvDecode (lit "[backends]")].
Proof.
  cbv zeta.
  destruct (GetConfiguration_decoder_input noFile anyAsset ∅ latin1Only anyFunc
              parseVerbatim executeVerbatim decodeVerbatim [] verboseProvider
              (lit "docker.tmpl") 1%positive tt callerStore) as (_ & _ & _ & Hlog).
  apply Hlog. apply list_elem_of_In. vm_compute. tauto.
Defined.


(** ** Characters and bytes *)

Lemma chars_nil : chars [] = [].
Proof. reflexivity. Qed.

(** The bytes of the characters of a string are the string. *)
Lemma chars_concat (s : gostring) : concat (map snd (chars s)) = s.
Proof.
  induction s as [|s r k Hne H Hk Hlen IH] using chars_ind; [reflexivity|].
  rewrite (chars_unfold s r k Hne H). cbn [map concat snd].
  rewrite IH. apply take_drop.
Qed.

Lemma chars_eq_nil (s : gostring) : chars s = [] -> s = [].
Proof. intros H. rewrite <- (chars_concat s), H. reflexivity. Qed.

(** An ASCII byte is a character of its own. *)
Lemma decode_ascii_only (s : gostring) (r k : Z) (c : ascii) :
  s <> [] -> DecodeRuneInString s = (r, k) ->
  c ∈ take (Z.to_nat k) s -> byteval c < 0x80 ->
  r = byteval c /\ k = 1.
Proof.
  intros Hne H Hin Hc.
  destruct s as [|c0 t0]; [contradiction|].
  destruct (Z.lt_ge_cases (byteval c0) 0x80) as [H0|H0].
  - rewrite (decode_ascii c0 t0 H0) in H. injection H as <- <-.
    change (Z.to_nat 1) with 1%nat in Hin. cbn [take] in Hin.
    rewrite take_0 in Hin. apply list_elem_of_singleton in Hin. subst c. split; reflexivity.
  - exfalso. rewrite DecodeRuneInString_nonempty in H by discriminate.
    assert (Hlen : 1 <= Z.of_nat (length (c0 :: t0))) by (simpl; lia).
    apply list_elem_of_lookup in Hin as [j Hj].
    assert (Hjk : (j < Z.to_nat k)%nat).
    { apply lookup_lt_Some in Hj. rewrite length_take in Hj. lia. }
    rewrite lookup_take_lt in Hj by exact Hjk.
    destruct (decodeBytes_cases _ _ _ _ _ _ _ Hlen H)
      as [[-> ->]|(Hk & Hn & Hc1 & Hc2 & Hc3 & _)].
    + assert (j = 0%nat) by lia. subst j. injection Hj as ->. lia.
    + assert (Hb : forall i : nat, (c0 :: t0) !! i = Some c ->
                                   byteAt (c0 :: t0) i = byteval c)
        by (intros i Hi; unfold byteAt; rewrite Hi; reflexivity).
      destruct j as [|[|[|[|j]]]]; try lia.
      * injection Hj as ->. lia.
      * specialize (Hc1 ltac:(lia)). rewrite (Hb 1%nat Hj) in Hc1. lia.
      * specialize (Hc2 ltac:(lia)). rewrite (Hb 2%nat Hj) in Hc2. lia.
      * specialize (Hc3 ltac:(lia)). rewrite (Hb 3%nat Hj) in Hc3. lia.
Qed.

Lemma chars_ascii_byte (s : gostring) (r : Z) (bs : gostring) (c : ascii) :
  (r, bs) ∈ chars s -> c ∈ bs -> byteval c < 0x80 -> r = byteval c.
Proof.
  induction s as [|s r0 k Hne H Hk Hlen IH] using chars_ind; intros Hin Hc Hascii.
  - inversion Hin.
  - rewrite (chars_unfold s r0 k Hne H) in Hin.
    apply elem_of_cons in Hin as [Heq|Hin]; [|exact (IH Hin Hc Hascii)].
    injection Heq as -> ->.
    exact (proj1 (decode_ascii_only s r0 k c Hne H Hc Hascii)).
Qed.

(** ** The fields of a string *)

Section FieldsMore.

Variable sep : Z -> bool.

Lemma fieldsFrom_all_separators (cs : list (Z * gostring)) :
  fieldsFrom sep None cs = [] <-> Forall (fun c => sep (fst c) = true) cs.
Proof.
  assert (Hsome : forall cs' f, fieldsFrom sep (Some f) cs' <> []).
  { induction cs' as [|[r bs] cs' IH]; intros f; cbn [fieldsFrom]; [discriminate|].
    destruct (sep r); [discriminate|apply IH]. }
  induction cs as [|[r bs] cs IH]; cbn [fieldsFrom].
  - split; [constructor|reflexivity].
  - destruct (sep r) eqn:Hr.
    + cbn [app]. rewrite IH. split; [intros H; constructor; assumption|].
      intros H. inversion H. assumption.
    + split; [intros H; destruct (Hsome _ _ H)|].
      intros H. inversion H as [|? ? Hr' _]. simpl in Hr'. congruence.
Qed.

Lemma fieldsFrom_no_separator (cs : list (Z * gostring)) :
  cs <> [] -> Forall (fun c => sep (fst c) = false) cs ->
  fieldsFrom sep None cs = [concat (map snd cs)].
Proof.
  intros Hne Hall.
  rewrite <- (app_nil_r cs) at 1.
  rewrite (fieldsFrom_word sep (concat (map snd cs)) cs [] Hne eq_refl Hall). reflexivity.
Qed.

(** A separator between two sequences of characters separates their
    fields. *)
Lemma fieldsFrom_app_separator (cs1 cs2 : list (Z * gostring)) (r : Z) (bs : gostring) :
  sep r = true ->
  forall cur, fieldsFrom sep cur (cs1 ++ (r, bs) :: cs2)
              = fieldsFrom sep cur cs1 ++ fieldsFrom sep None cs2.
Proof.
  intros Hr. induction cs1 as [|[r1 bs1] cs1 IH]; intros cur; cbn [app fieldsFrom].
  - rewrite Hr. destruct cur; reflexivity.
  - destruct (sep r1); [|apply IH]. rewrite IH, app_assoc. reflexivity.
Qed.

Lemma word_nonempty (w : gostring) : word sep w -> w <> [].
Proof.
  intros (cs & Hcs & _ & _ & Hreads) ->.
  pose proof (Hreads [] I) as H. simpl in H. rewrite app_nil_r in H.
  destruct cs; [contradiction|discriminate].
Qed.

(** A word has no ASCII byte that is a separator. *)
Lemma word_ascii_bytes (w : gostring) (c : ascii) :
  word sep w -> c ∈ w -> byteval c < 0x80 -> sep (byteval c) = false.
Proof.
  intros (cs & _ & Hw & Hsep & Hreads) Hc Hascii.
  pose proof (Hreads [] I) as Hchars. rewrite !app_nil_r in Hchars.
  rewrite <- Hw in Hc. apply list_elem_of_In, in_concat in Hc as (bs & Hbs & Hc).
  apply in_map_iff in Hbs as ([r bs'] & Heq & Hin). simpl in Heq. subst bs'.
  rewrite <- (chars_ascii_byte w r bs c);
    [|rewrite Hchars; apply list_elem_of_In; exact Hin|apply list_elem_of_In; exact Hc
     |exact Hascii].
  rewrite Forall_forall in Hsep. apply (Hsep (r, bs)), list_elem_of_In, Hin.
Qed.

End FieldsMore.

Lemma joinWith_eq_nil (sep : gostring) (frags : list gostring) :
  Forall (fun frag => frag <> []) frags -> joinWith sep frags = [] -> frags = [].
Proof.
  intros Hall H. destruct Hall as [|frag frags Hfrag _]; [reflexivity|].
  exfalso. destruct frags; simpl in H; [contradiction|].
  destruct frag; [contradiction|discriminate].
Qed.

Lemma joinWith_app (sep : gostring) (frags1 frags2 : list gostring) :
  frags1 <> [] -> frags2 <> [] ->
  joinWith sep (frags1 ++ frags2) = joinWith sep frags1 ++ sep ++ joinWith sep frags2.
Proof.
  intros H1 H2. induction frags1 as [|x frags1 IH]; [contradiction|].
  destruct frags1 as [|y frags1].
  - cbn [app]. apply joinWith_cons. exact H2.
  - change ((x :: y :: frags1) ++ frags2) with (x :: ((y :: frags1) ++ frags2)).
    rewrite joinWith_cons by discriminate. rewrite IH by discriminate.
    rewrite (joinWith_cons sep x (y :: frags1)) by discriminate.
    rewrite <- !app_assoc. reflexivity.
Qed.

Lemma fields_are_words (tables : RangeTables) (s : gostring) :
  Forall (word (fargs tables)) (fieldsFrom (fargs tables) None (chars s)).
Proof. apply fieldsFrom_words. Qed.

Lemma fields_nonempty (tables : RangeTables) (s : gostring) :
  Forall (fun frag => frag <> []) (fieldsFrom (fargs tables) None (chars s)).
Proof.
  eapply Forall_impl; [apply fields_are_words|]. intros w. apply word_nonempty.
Qed.

Lemma Normalize_eq_nil (tables : RangeTables) (s : gostring) :
  Normalize tables s = [] <-> fieldsFrom (fargs tables) None (chars s) = [].
Proof.
  rewrite Normalize_fields. split.
  - apply joinWith_eq_nil, fields_nonempty.
  - intros ->. reflexivity.
Qed.

(** ** Normalize, further *)

Lemma byteval_range (c : ascii) : 0 <= byteval c < 256.
Proof.
  unfold byteval. pose proof (N_ascii_bounded c) as H. lia.
Qed.

(** On ASCII, the separators of [Normalize] are the bytes that are neither
    a letter nor a digit. *)
Lemma between_below (lo hi b : Z) : b < lo -> between lo hi b = false.
Proof.
  intros H. unfold between. destruct (Z.leb_spec lo b); [lia|reflexivity].
Qed.

Lemma fargs_ascii (tables : RangeTables) (b : Z) :
  0 <= b < 0x80 -> fargs tables b = negb (asciiAlnum b).
Proof.
  intros Hb. unfold fargs, IsLetter, IsNumber, uint32.
  rewrite Z.mod_small by lia. unfold MaxLatin1.
  destruct (Z.leb_spec b 255) as [_|Hgt]; [|lia].
  unfold latin1Letter, latin1Number, asciiAlnum.
  rewrite (between_below 0xC0), (between_below 0xD8), (between_below 0xF8),
    (between_below 0xBC) by lia.
  rewrite (proj2 (Z.eqb_neq b 0xAA)), (proj2 (Z.eqb_neq b 0xB5)), (proj2 (Z.eqb_neq b 0xBA)),
    (proj2 (Z.eqb_neq b 0xB2)), (proj2 (Z.eqb_neq b 0xB3)), (proj2 (Z.eqb_neq b 0xB9)) by lia.
  destruct (between 0x41 0x5A b), (between 0x61 0x7A b), (between 0x30 0x39 b); reflexivity.
Qed.

Lemma elem_of_joinWith (sep : gostring) (frags : list gostring) (c : ascii) :
  c ∈ joinWith sep frags -> c ∈ sep \/ exists frag, frag ∈ frags /\ c ∈ frag.
Proof.
  induction frags as [|x frags IH]; intros Hc; [inversion Hc|].
  destruct frags as [|y frags].
  - right. exists x. split; [constructor|exact Hc].
  - rewrite joinWith_cons in Hc by discriminate.
    apply elem_of_app in Hc as [Hc|Hc]; [right; exists x; split; [constructor|exact Hc]|].
    apply elem_of_app in Hc as [Hc|Hc]; [left; exact Hc|].
    destruct (IH Hc) as [Hs|(frag & Hf & Hin)]; [left; exact Hs|].
    right. exists frag. split; [constructor; exact Hf|exact Hin].
Qed.

Lemma chars_of_words (sep : Z -> bool) (F : list gostring) :
  Forall (word sep) F ->
  Forall (fun c => sep (fst c) = false \/ fst c = 0x2D) (chars (joinWith (lit "-") F)).
Proof.
  induction 1 as [|w F (cs & Hcs & Hw & Hsep & Hreads) HF IH]; [constructor|].
  unfold readsAs in Hreads.
  assert (Hcs' : Forall (fun c => sep (fst c) = false \/ fst c = 0x2D) cs)
    by (eapply Forall_impl; [exact Hsep|intros c Hc; left; exact Hc]).
  destruct F as [|w' F].
  - cbn [joinWith]. rewrite <- (app_nil_r w).
    pose proof (Hreads [] I) as Hend. rewrite Hend, app_nil_r. exact Hcs'.
  - rewrite joinWith_cons by discriminate.
    change (lit "-" ++ joinWith (lit "-") (w' :: F))
      with ("-"%char :: joinWith (lit "-") (w' :: F)).
    assert (Hascii : asciiHead ("-"%char :: joinWith (lit "-") (w' :: F)))
      by (vm_compute; reflexivity).
    pose proof (Hreads _ Hascii) as Hdashed. rewrite Hdashed.
    rewrite chars_ascii by (vm_compute; reflexivity).
    apply Forall_app. split; [exact Hcs'|].
    constructor; [right; reflexivity|exact IH].
Qed.

(** X10. The output of [Normalize] consists of letters, numbers and "-":
    every one of its characters is "-" or is not a separator, and every
    ASCII byte in it is "-", a digit or a letter; so no "." is left. *)
Theorem Normalize_output_alphabet (tables : RangeTables) (s : gostring) :
  Forall (fun c => fargs tables (fst c) = false \/ fst c = 0x2D) (chars (Normalize tables s))
  /\ (forall c : ascii,
        c ∈ Normalize tables s -> byteval c < 0x80 ->
        c = "-"%char \/ asciiAlnum (byteval c) = true)
  /\ "."%char ∉ Normalize tables s.
Proof.
  assert (Hbytes : forall c : ascii,
             c ∈ Normalize tables s -> byteval c < 0x80 ->
             c = "-"%char \/ asciiAlnum (byteval c) = true).
  { intros c Hc Hascii. rewrite Normalize_fields in Hc.
    apply elem_of_joinWith in Hc as [Hc|(w & Hw & Hc)].
    - left. apply list_elem_of_singleton in Hc. exact Hc.
    - right. pose proof (fields_are_words tables s) as Hall.
      rewrite Forall_forall in Hall. specialize (Hall w Hw).
      pose proof (word_ascii_bytes (fargs tables) w c Hall Hc Hascii) as Hsep.
      rewrite fargs_ascii in Hsep by (pose proof (byteval_range c); lia).
      destruct (asciiAlnum (byteval c)); [reflexivity|discriminate]. }
  split; [|split; [exact Hbytes|]].
  - rewrite Normalize_fields. apply chars_of_words, fields_are_words.
  - intros Hdot. destruct (Hbytes _ Hdot) as [H|H];
      [vm_compute; reflexivity|discriminate H|vm_compute in H; discriminate H].
Qed.

(** X11. [Normalize] returns the empty string exactly when no character of
    its argument is a letter or a number. *)
Theorem Normalize_empty_iff (tables : RangeTables) (s : gostring) :
  Normalize tables s = [] <-> Forall (fun c => fargs tables (fst c) = true) (chars s).
Proof.
  rewrite Normalize_eq_nil. apply fieldsFrom_all_separators.
Qed.

(** X12. A string all of whose characters are letters or numbers is
    returned unchanged. *)
Theorem Normalize_letters_and_numbers (tables : RangeTables) (s : gostring) :
  Forall (fun c => fargs tables (fst c) = false) (chars s) ->
  Normalize tables s = s.
Proof.
  intros Hall. rewrite Normalize_fields.
  destruct (chars s) as [|c cs] eqn:E.
  - apply chars_eq_nil in E. subst s. reflexivity.
  - rewrite fieldsFrom_no_separator by (discriminate || exact Hall).
    cbn [joinWith]. rewrite <- E. apply chars_concat.
Qed.

(** The characters on both sides of an ASCII byte are read independently. *)
Lemma chars_app_ascii (a b : gostring) (c : ascii) :
  byteval c < 0x80 -> chars (a ++ c :: b) = chars a ++ (byteval c, [c]) :: chars b.
Proof.
  intros Hc. rewrite <- (chars_ascii c b Hc).
  apply (chars_context (chars a) a [] (c :: b)); [apply chars_concat| |exact Hc].
  rewrite !app_nil_r. reflexivity.
Qed.

(** X13. [Normalize] works piecewise around an ASCII separator: the result
    for [a ++ c :: b] is made of the results for [a] and for [b], joined by
    "-" when neither is empty. *)
Theorem Normalize_around_separator (tables : RangeTables) (a b : gostring) (c : ascii) :
  byteval c < 0x80 -> asciiAlnum (byteval c) = false ->
  Normalize tables (a ++ c :: b) =
  if decide (Normalize tables a = []) then Normalize tables b
  else if decide (Normalize tables b = []) then Normalize tables a
  else Normalize tables a ++ lit "-" ++ Normalize tables b.
Proof.
  intros Hc Hsep.
  assert (Hf : fargs tables (byteval c) = true)
    by (rewrite fargs_ascii, Hsep by (pose proof (byteval_range c); lia); reflexivity).
  rewrite (Normalize_fields tables (a ++ c :: b)), chars_app_ascii by exact Hc.
  rewrite fieldsFrom_app_separator by exact Hf.
  destruct (decide (Normalize tables a = [])) as [Ha|Ha].
  - apply Normalize_eq_nil in Ha. rewrite Ha. symmetry. apply Normalize_fields.
  - destruct (decide (Normalize tables b = [])) as [Hb|Hb].
    + apply Normalize_eq_nil in Hb. rewrite Hb, app_nil_r. symmetry. apply Normalize_fields.
    + rewrite joinWith_app, <- !Normalize_fields; [reflexivity| |];
        intros E; [apply Ha|apply Hb]; apply Normalize_eq_nil; exact E.
Qed.

(** The joined fields are no longer than the characters they come from. *)
Lemma fieldsFrom_length (sep : Z -> bool) (d : ascii) (cs : list (Z * gostring)) :
  Forall (fun c => snd c <> []) cs ->
  (length (joinWith [d] (fieldsFrom sep None cs)) <= length (concat (map snd cs)))%nat
  /\ forall f : gostring,
       (length (joinWith [d] (fieldsFrom sep (Some f) cs))
        <= length f + length (concat (map snd cs)))%nat.
Proof.
  induction 1 as [|[r bs] cs Hbs _ [IHnone IHsome]]; [|simpl in Hbs].
  - split; [simpl; lia|]. intros f. simpl. lia.
  - assert (Hlen : (1 <= length bs)%nat) by (destruct bs; [contradiction|simpl; lia]).
    cbn [fieldsFrom map concat snd]. rewrite length_app.
    destruct (sep r).
    + split; [cbn [app]; lia|]. intros f. cbn [app].
      destruct (fieldsFrom sep None cs) as [|x R] eqn:E; [simpl; lia|].
      rewrite joinWith_cons by discriminate. rewrite !length_app. simpl length at 2. lia.
    + split; [specialize (IHsome bs); lia|].
      intros f. specialize (IHsome (f ++ bs)). rewrite length_app in IHsome. lia.
Qed.

(** X14. The output of [Normalize] is never longer than its argument. *)
Theorem Normalize_length (tables : RangeTables) (s : gostring) :
  (length (Normalize tables s) <= length s)%nat.
Proof.
  rewrite Normalize_fields.
  destruct (fieldsFrom_length (fargs tables) "-"%char (chars s) (chars_bytes_nonempty s))
    as [H _].
  rewrite chars_concat in H. exact H.
Qed.

Lemma Normalize_letters_and_numbers_witness :
  Normalize latin1Only (lit "web01") = lit "web01".
Proof.
  apply Normalize_letters_and_numbers.
  repeat (apply Forall_cons; split; [vm_compute; reflexivity|]). apply Forall_nil_2.
Defined.

Lemma Normalize_around_separator_witness :
  Normalize latin1Only (lit "my.service" ++ "/"%char :: lit "v2")
  = Normalize latin1Only (lit "my.service") ++ lit "-" ++ Normalize latin1Only (lit "v2").
Proof.
  rewrite (Normalize_around_separator latin1Only (lit "my.service") (lit "v2") "/"%char);
    [reflexivity|vm_compute; reflexivity|vm_compute; reflexivity].
Defined.

(** ** split, further *)

Lemma HasPrefix_single (b c : ascii) (t : gostring) :
  HasPrefix (b :: t) [c] = bool_decide (b = c).
Proof.
  destruct (decide (b = c)) as [->|Hne].
  - rewrite bool_decide_eq_true_2 by reflexivity. apply HasPrefix_true. exists t. reflexivity.
  - rewrite bool_decide_eq_false_2 by exact Hne.
    destruct (HasPrefix (b :: t) [c]) eqn:E; [|reflexivity].
    apply HasPrefix_true in E as [rest E]. injection E as E _. contradiction.
Qed.

Lemma Index_single_absent (c : ascii) (s : gostring) : c ∉ s -> Index s [c] = -1.
Proof.
  induction s as [|b t IH]; intros Hc; [reflexivity|].
  rewrite Index_cons, HasPrefix_single.
  rewrite bool_decide_eq_false_2 by (intros ->; apply Hc; constructor).
  rewrite IH by (intros H; apply Hc; constructor; exact H). reflexivity.
Qed.

Lemma Index_single_first (c : ascii) (x rest : gostring) :
  c ∉ x -> Index (x ++ c :: rest) [c] = Z.of_nat (length x).
Proof.
  induction x as [|b x IH]; intros Hc.
  - cbn [app]. rewrite Index_cons, HasPrefix_single, bool_decide_eq_true_2; reflexivity.
  - cbn [app]. rewrite Index_cons, HasPrefix_single.
    rewrite bool_decide_eq_false_2 by (intros ->; apply Hc; constructor).
    rewrite IH by (intros H; apply Hc; constructor; exact H).
    destruct (Z.ltb_spec (Z.of_nat (length x)) 0); [lia|]. simpl length. lia.
Qed.

(** The loop of [genSplit] on a join of pieces free of the separator. *)
Lemma splitLoop_joined (c : ascii) (pieces : list gostring) :
  pieces <> [] -> Forall (fun piece => c ∉ piece) pieces ->
  forall a : list gostring,
  exists (init : list gostring) (final : gostring),
    pieces = init ++ [final]
    /\ splitLoop (Z.to_nat (Count (joinWith [c] pieces) [c])) (joinWith [c] pieces) [c] 0 a
       = (a ++ init, final).
Proof.
  intros Hne Hall.
  induction Hall as [|x pieces Hx Hall IH]; [contradiction|]. intros a.
  destruct pieces as [|y pieces].
  - exists [], x. split; [reflexivity|]. cbn [joinWith].
    rewrite Count_step, decide_True by (apply Index_single_absent, Hx).
    rewrite app_nil_r. reflexivity.
  - rewrite joinWith_cons by discriminate.
    set (J := joinWith [c] (y :: pieces)) in *.
    change ([c] ++ J) with (c :: J).
    assert (Hdrop : drop (Z.to_nat (Z.of_nat (length x) + Z.of_nat (length [c])))
                      (x ++ c :: J) = J).
    { replace (Z.to_nat (Z.of_nat (length x) + Z.of_nat (length [c])))
        with (length x + 1)%nat by (simpl; lia).
      rewrite <- drop_drop, drop_app_length. reflexivity. }
    rewrite Count_step, Index_single_first by exact Hx.
    rewrite decide_False by lia. rewrite Hdrop.
    pose proof (Count_nonneg J c []) as Hcnt.
    replace (Z.to_nat (1 + Count J [c])) with (S (Z.to_nat (Count J [c]))) by lia.
    cbn [splitLoop]. rewrite Index_single_first by exact Hx.
    destruct (Z.ltb_spec (Z.of_nat (length x)) 0); [lia|]. rewrite Hdrop.
    replace (slice (x ++ c :: J) 0 (Z.of_nat (length x) + 0)) with x
      by (rewrite Z.add_0_r, slice_0, take_app_length; reflexivity).
    destruct (IH ltac:(discriminate) (a ++ [x])) as (init & final & Hpieces & Hloop).
    exists (x :: init), final. split; [rewrite Hpieces; reflexivity|].
    rewrite Hloop, <- app_assoc. reflexivity.
Qed.

(** Splitting on a byte what was joined with it gives back the pieces. *)
Lemma split_joined (c : ascii) (pieces : list gostring) :
  pieces <> [] -> Forall (fun piece => c ∉ piece) pieces ->
  split [c] (joinWith [c] pieces) = pieces.
Proof.
  intros Hne Hall. rewrite split_nonempty_separator.
  destruct (splitLoop_joined c pieces Hne Hall []) as (init & final & Hpieces & ->).
  symmetry. exact Hpieces.
Qed.

(** X15. With a one-byte separator [split] and joining are inverse to each
    other: the pieces of [s] joined with the separator give back [s], and
    splitting a join of pieces that do not contain the separator gives back
    the pieces. *)
Theorem split_join_inverse (c : ascii) :
  (forall s : gostring, joinWith [c] (split [c] s) = s)
  /\ (forall pieces : list gostring,
        pieces <> [] -> Forall (fun piece => c ∉ piece) pieces ->
        split [c] (joinWith [c] pieces) = pieces).
Proof.
  split; [|apply split_joined].
  intros s. exact (proj1 (split_literal [c] s ltac:(discriminate))).
Qed.

Lemma split_join_inverse_witness :
  split (lit ",") (joinWith (lit ",") [lit "a"; lit ""; lit "bc"]) = [lit "a"; lit ""; lit "bc"].
Proof.
  apply (proj2 (split_join_inverse ","%char)); [discriminate|].
  repeat (apply Forall_cons; split; [vm_compute; intros H; inversion H; subst;
    repeat match goal with H' : _ ∈ _ |- _ => inversion H'; subst; clear H' end|]).
  apply Forall_nil_2.
Defined.

(** X16. Splitting the output of [Normalize] on "-" gives the fields of the
    argument: its maximal runs of letters and numbers. *)
Theorem split_Normalize (tables : RangeTables) (s : gostring) :
  split (lit "-") (Normalize tables s) =
  match FieldsFunc s (fargs tables) with
  | [] => [[]]
  | fields => fields
  end.
Proof.
  rewrite Normalize_fields, FieldsFunc_fieldsFrom.
  pose proof (fields_are_words tables s) as Hwords.
  destruct (fieldsFrom (fargs tables) None (chars s)) as [|w F] eqn:E; [reflexivity|].
  apply (split_joined "-"%char); [discriminate|].
  eapply Forall_impl; [exact Hwords|]. intros w' Hw' Hin.
  pose proof (word_ascii_bytes (fargs tables) w' "-"%char Hw' Hin) as Hsep.
  specialize (Hsep ltac:(vm_compute; reflexivity)).
  vm_compute in Hsep. discriminate Hsep.
Qed.

(** The loop of [genSplit] fills exactly [Count(s, sep)] slots. *)
Lemma splitLoop_length (c : ascii) (cs : gostring) (k : nat) :
  forall (s : gostring) (a : list gostring), (length s < k)%nat ->
  length (fst (splitLoop (Z.to_nat (Count s (c :: cs))) s (c :: cs) 0 a))
  = (length a + Z.to_nat (Count s (c :: cs)))%nat.
Proof.
  induction k as [|k IH]; intros s a Hk; [lia|].
  rewrite Count_step. case_decide as Hi; [simpl; lia|].
  pose proof (Index_ge s (c :: cs)) as Hge.
  pose proof (drop_after_instance_shorter s c cs Hi) as Hshort.
  set (m := Index s (c :: cs)) in *.
  set (s' := drop (Z.to_nat (m + Z.of_nat (length (c :: cs)))) s) in *.
  pose proof (Count_nonneg s' c cs) as Hcnt.
  replace (Z.to_nat (1 + Count s' (c :: cs))) with (S (Z.to_nat (Count s' (c :: cs)))) by lia.
  cbn [splitLoop]. fold m. destruct (Z.ltb_spec m 0) as [Hlt|_]; [lia|]. fold s'.
  rewrite IH by lia. rewrite length_app. simpl. lia.
Qed.

(** X17. For a non-empty separator the result of [split] has one piece
    more than there are non-overlapping instances of the separator; it is
    never empty. *)
Theorem split_piece_count (sep s : gostring) :
  sep <> [] ->
  Z.of_nat (length (split sep s)) = Count s sep + 1 /\ split sep s <> [].
Proof.
  intros Hsep. destruct sep as [|c cs]; [contradiction|].
  rewrite split_nonempty_separator.
  pose proof (splitLoop_length c cs (S (length s)) s [] ltac:(lia)) as Hlen.
  pose proof (Count_nonneg s c cs) as Hcnt.
  destruct (splitLoop (Z.to_nat (Count s (c :: cs))) s (c :: cs) 0 []) as [a rest].
  cbn [fst length] in Hlen. split.
  - rewrite length_app. cbn [length]. lia.
  - destruct a; discriminate.
Qed.

Lemma split_piece_count_witness :
  Z.of_nat (length (split (lit ", ") (lit "a, b, c"))) = Count (lit "a, b, c") (lit ", ") + 1.
Proof.
  apply (proj1 (split_piece_count (lit ", ") (lit "a, b, c") ltac:(discriminate))).
Defined.

Lemma rangeFrom_length (s : gostring) :
  forall i : Z, length (rangeFrom i s) = length (chars s).
Proof.
  induction s as [|s r k Hne H Hk Hlen IH] using chars_ind; intros i; [reflexivity|].
  rewrite (rangeFrom_unfold s i r k Hne H), (chars_unfold s r k Hne H).
  cbn [length]. rewrite IH. reflexivity.
Qed.

(** The loop of [explode] takes the characters one by one. *)
Lemma explodeLoop_chars (k : nat) :
  forall (s : gostring) (a : list gostring),
  (k <= length (chars s))%nat ->
  Forall (fun c => fst c <> RuneError) (take k (chars s)) ->
  explodeLoop k s a
  = (a ++ map snd (take k (chars s)), concat (map snd (drop k (chars s)))).
Proof.
  induction k as [|k IH]; intros s a Hk Hall.
  - cbn [explodeLoop]. rewrite take_0, drop_0. cbn [map].
    rewrite app_nil_r, chars_concat. reflexivity.
  - assert (Hne : s <> []) by (intros ->; simpl in Hk; lia).
    destruct (DecodeRuneInString s) as [r size] eqn:H.
    pose proof (decode_width s r size Hne H) as [Hsize Hlen].
    cbn [explodeLoop]. rewrite H.
    rewrite (chars_unfold s r size Hne H) in Hk, Hall |- *.
    rewrite firstn_cons in Hall |- *. rewrite skipn_cons. cbn [map length] in Hk |- *.
    apply Forall_cons in Hall as [Hr Hall]. cbn [fst] in Hr.
    destruct (Z.eqb_spec r RuneError) as [E|_]; [contradiction|].
    rewrite IH by (lia || exact Hall).
    replace (slice s 0 size) with (take (Z.to_nat size) s)
      by (unfold slice; rewrite Z.sub_0_r; reflexivity).
    rewrite <- app_assoc. reflexivity.
Qed.

(** X18. With the empty separator, a string whose decoding meets no
    [RuneError] is split into its characters: one piece per rune, and the
    pieces concatenated give back the string. *)
Theorem split_empty_separator (s : gostring) :
  Forall (fun c => fst c <> RuneError) (chars s) ->
  split [] s = map snd (chars s) /\ concat (split [] s) = s.
Proof.
  intros Hall.
  assert (Hsplit : split [] s = map snd (chars s)).
  { unfold split, Split, genSplit. change (-1 =? 0) with false. cbv iota.
    rewrite bool_decide_eq_true_2 by reflexivity.
    unfold explode, RuneCountInString, rangeString. rewrite rangeFrom_length.
    change (-1 <? 0) with true. cbn [orb]. cbv zeta.
    destruct (length (chars s)) as [|m] eqn:El.
    - apply length_zero_iff_nil in El. rewrite El.
      apply chars_eq_nil in El. subst s. reflexivity.
    - replace (Z.to_nat (Z.of_nat (S m) - 1)) with m by lia.
      rewrite explodeLoop_chars by (lia || apply Forall_take; exact Hall).
      destruct (Z.ltb_spec 0 (Z.of_nat (S m))); [|lia].
      rewrite <- (take_drop m (chars s)) at 3. rewrite map_app. cbn [app]. f_equal.
      destruct (drop m (chars s)) as [|x [|y rest]] eqn:Ed.
      + apply (f_equal length) in Ed. rewrite length_drop in Ed. simpl in Ed. lia.
      + simpl. rewrite app_nil_r. reflexivity.
      + apply (f_equal length) in Ed. rewrite length_drop in Ed. simpl in Ed. lia. }
  split; [exact Hsplit|]. rewrite Hsplit. apply chars_concat.
Qed.

Lemma split_empty_separator_witness :
  let s := [byte 0x68; byte 0xC3; byte 0xA9; byte 0x21] in
  split [] s = [[byte 0x68]; [byte 0xC3; byte 0xA9]; [byte 0x21]].
Proof.
  cbv zeta.
  refine (eq_trans (proj1 (split_empty_separator [byte 0x68; byte 0xC3; byte 0xA9; byte 0x21] _)) _).
  - repeat (apply Forall_cons; split; [vm_compute; discriminate|]). apply Forall_nil_2.
  - vm_compute. reflexivity.
Defined.

(** ** ReverseStringSlice, further *)

(** X19. [ReverseStringSlice] loses and duplicates nothing, and it reverses
    a concatenation part by part: the result for [a ++ b] is the result for
    [b] followed by the result for [a]. *)
Theorem ReverseStringSlice_concatenation (a b : list gostring) :
  exists ra rb rab : list gostring,
    ReverseStringSlice a = Some ra
    /\ ReverseStringSlice b = Some rb
    /\ ReverseStringSlice (a ++ b) = Some rab
    /\ rab = rb ++ ra
    /\ rab ≡ₚ a ++ b.
Proof.
  exists (reverse a), (reverse b), (reverse (a ++ b)).
  rewrite !ReverseStringSlice_reverse.
  repeat split; [apply reverse_app|apply reverse_Permutation].
Qed.
